(** * A shallow embedding of [muscial_parser.py]

    The program is a thin facade ([MusicalLanguageParser]) over a chart
    parser: [tokenize] splits the input text, [parse] runs the chart
    parser inside a [try]/[except Exception], [is_valid] tests the result
    for emptiness and [generate_examples] enumerates sentences with a
    depth bound.

    Python values are modelled as follows: a [str] is the list of its
    code points, a [list] is a [list], an exception is a value of
    [Exception], and a call returns an [outcome]. *)

From Stdlib Require Import String Ascii NArith ZArith Bool Arith Lia List.
Import ListNotations.

Set Implicit Arguments.
Set Warnings "-register-all".

(* ================================================================== *)
(** * Python strings *)
(* ================================================================== *)

Module Py.

(** A Python [str]: a sequence of Unicode code points. *)
Definition str := list N.

(** The [str] denoted by an ASCII literal. *)
Definition lit (s : string) : str :=
  map N_of_ascii (list_ascii_of_string s).

Definition str_eqb (a b : str) : bool :=
  if list_eq_dec N.eq_dec a b then true else false.

(** [c.isspace()] for one code point: the characters whose general
    category is Zs or whose bidirectional class is WS, B or S. *)
Definition isspace (c : N) : bool :=
  ((9 <=? c) && (c <=? 13)              (* \t \n \v \f \r *)
   || (28 <=? c) && (c <=? 31)          (* FS GS RS US *)
   || (c =? 32)                         (* space *)
   || (c =? 133)                        (* U+0085 *)
   || (c =? 160)                        (* U+00A0 *)
   || (c =? 5760)                       (* U+1680 *)
   || (8192 <=? c) && (c <=? 8202)      (* U+2000 .. U+200A *)
   || (c =? 8232) || (c =? 8233)        (* U+2028 U+2029 *)
   || (c =? 8239)                       (* U+202F *)
   || (c =? 8287)                       (* U+205F *)
   || (c =? 12288))%N.                  (* U+3000 *)

(** [s.replace(old, new)] where [old] is a single character. *)
Definition replace (old : N) (new : str) (s : str) : str :=
  flat_map (fun c => if (c =? old)%N then new else [c]) s.

(** The word collected so far ([word], most recent character first) is
    emitted when it is not empty. *)
Definition flush (word : str) : list str :=
  match word with
  | [] => []
  | _ :: _ => [rev word]
  end.

(** [s.split()] with no separator: the maximal runs of characters that
    are not whitespace, scanning left to right. *)
Fixpoint split_from (word : str) (s : str) : list str :=
  match s with
  | [] => flush word
  | c :: s' =>
      if isspace c then flush word ++ split_from [] s'
      else split_from (c :: word) s'
  end.

Definition split (s : str) : list str := split_from [] s.

Fixpoint lstrip (s : str) : str :=
  match s with
  | [] => []
  | c :: s' => if isspace c then lstrip s' else s
  end.

Definition rstrip (s : str) : str := rev (lstrip (rev s)).

(** [s.strip()] *)
Definition strip (s : str) : str := rstrip (lstrip s).

(** Truth value of a [str]: the empty string is falsy. *)
Definition truthy (s : str) : bool :=
  match s with [] => false | _ :: _ => true end.

(** [sep.join(parts)] *)
Fixpoint join (sep : str) (parts : list str) : str :=
  match parts with
  | [] => []
  | [p] => p
  | p :: rest => p ++ sep ++ join sep rest
  end.

End Py.

Abbreviation pystr := Py.str.

(* ================================================================== *)
(** * Calls, exceptions and iterators *)
(* ================================================================== *)

(** Instances of Python's [Exception] class.  Every one of them is caught
    by an [except Exception] clause.  (Signals outside that class, such
    as a keyboard interrupt, are not part of the model.) *)
Inductive Exception : Type :=
| ValueError (msg : string) (args : list pystr)
| IndexError (msg : string)
| RuntimeError (msg : string)
| RecursionError (msg : string)
| GrammarSyntaxError (line : pystr).

(** What a call does: it returns a value, raises an exception, or never
    comes back. *)
Inductive outcome (A : Type) : Type :=
| Return (a : A)
| Raise (e : Exception)
| Diverge.

Arguments Return {A} a.
Arguments Raise {A} e.
Arguments Diverge {A}.

Definition bind {A B : Type} (m : outcome A) (k : A -> outcome B) : outcome B :=
  match m with
  | Return a => k a
  | Raise e => Raise e
  | Diverge => Diverge
  end.

Notation "x <- m ;; k" := (bind m (fun x => k))
  (at level 61, m at next level, right associativity).

(** [try: body  except Exception as e: handler e] *)
Definition try_except {A : Type} (body : outcome A)
    (handler : Exception -> outcome A) : outcome A :=
  match body with
  | Return a => Return a
  | Raise e => handler e
  | Diverge => Diverge
  end.

(** How an iterator ends once its items have been produced. *)
Inductive ending : Type :=
| StopIteration
| Raises (e : Exception)
| Hangs.

(** A (lazy) iterator: the items it yields, in order, and how it ends.
    A consumer that stops early never sees the ending. *)
Record iterator (A : Type) : Type := Iterator
  { items : list A;
    fin : ending }.

Arguments Iterator {A} items fin.

(** [list(it)]: exhausts the iterator. *)
Definition list_ {A : Type} (it : iterator A) : outcome (list A) :=
  match fin it with
  | StopIteration => Return (items it)
  | Raises e => Raise e
  | Hangs => Diverge
  end.

(** Iterating over an eagerly computed list. *)
Definition iter {A : Type} (l : list A) : iterator A := Iterator l StopIteration.

(** Monadic left fold, used for [for] loops whose body may raise. *)
Fixpoint foldM {A S : Type} (f : S -> A -> outcome S) (l : list A) (s : S)
  : outcome S :=
  match l with
  | [] => Return s
  | a :: l' => s' <- f s a ;; foldM f l' s'
  end.

(* ================================================================== *)
(** * Grammars and parse trees *)
(* ================================================================== *)

(** A grammar symbol: a nonterminal (an object holding its name) or a
    terminal (a bare string). *)
Inductive symbol : Type :=
| Nonterminal (name : pystr)
| Terminal (word : pystr).

Definition symbol_eq_dec (a b : symbol) : {a = b} + {a <> b}.
Proof. decide equality; apply (list_eq_dec N.eq_dec). Defined.

Definition symbol_eqb (a b : symbol) : bool :=
  if symbol_eq_dec a b then true else false.

(** A production [lhs -> rhs]; [rhs = []] is an epsilon production. *)
Record Production : Type := mkProduction
  { lhs : pystr;
    rhs : list symbol }.

Definition Production_eq_dec (a b : Production) : {a = b} + {a <> b}.
Proof.
  decide equality; [apply (list_eq_dec symbol_eq_dec) | apply (list_eq_dec N.eq_dec)].
Defined.

Record CFG : Type := mkCFG
  { start : pystr;
    productions : list Production }.

(** A parse tree: an inner node carries the name of a nonterminal and its
    children, a leaf is the token itself. *)
Inductive Tree : Type :=
| Node (label : pystr) (children : list Tree)
| Leaf (token : pystr).

(** Modelled from the spec: the Grammar Model (sections 3, 4.1 and 6).
    The source takes it from the parsing library ([CFG.fromstring] and
    the lookups the chart parser makes into the grammar), whose code is
    not part of the repository. *)
Module Grammar.

(** [s.split(sep)] for a single-character separator: the pieces between
    the separators, empty pieces included. *)
Fixpoint split_on_from (sep : N) (piece : pystr) (s : pystr) : list pystr :=
  match s with
  | [] => [rev piece]
  | c :: s' =>
      if (c =? sep)%N then rev piece :: split_on_from sep [] s'
      else split_on_from sep (c :: piece) s'
  end.

Definition split_on (sep : N) (s : pystr) : list pystr :=
  split_on_from sep [] s.

(** Splits a line at its first [->]. *)
Fixpoint partition_arrow (before : pystr) (s : pystr) : option (pystr * pystr) :=
  match s with
  | [] => None
  | c :: s' =>
      match c, s' with
      | 45%N, 62%N :: after => Some (rev before, after)
      | _, _ => partition_arrow (c :: before) s'
      end
  end.

Definition quote : N := 39.

Definition has_quote (s : pystr) : bool := existsb (N.eqb quote) s.

(** A quoted token is a terminal, a bare one a nonterminal. *)
Definition read_symbol (line tok : pystr) : outcome symbol :=
  match tok with
  | 39%N :: rest =>
      match rev rest with
      | 39%N :: inner =>
          if has_quote inner then Raise (GrammarSyntaxError line)
          else Return (Terminal (rev inner))
      | _ => Raise (GrammarSyntaxError line)
      end
  | _ =>
      if has_quote tok then Raise (GrammarSyntaxError line)
      else Return (Nonterminal tok)
  end.

Fixpoint mapM {A B : Type} (f : A -> outcome B) (l : list A) : outcome (list B) :=
  match l with
  | [] => Return []
  | a :: l' => b <- f a ;; bs <- mapM f l' ;; Return (b :: bs)
  end.

(** One alternative: a whitespace-separated list of symbols, possibly
    empty. *)
Definition read_alternative (line lhs_ : pystr) (alt : pystr) : outcome Production :=
  syms <- mapM (read_symbol line) (Py.split alt) ;;
  Return (mkProduction lhs_ syms).

(** One line [LHS -> RHS1 | RHS2 | ...]: a production per alternative. *)
Definition read_production (line : pystr) : outcome (list Production) :=
  match partition_arrow [] line with
  | None => Raise (GrammarSyntaxError line)
  | Some (before, after) =>
      match Py.split before with
      | [name] =>
          if has_quote name then Raise (GrammarSyntaxError line)
          else mapM (read_alternative line name) (split_on 124 after)
      | _ => Raise (GrammarSyntaxError line)
      end
  end.

Definition read_line (prods : list Production) (line : pystr)
  : outcome (list Production) :=
  match Py.strip line with
  | [] => Return prods
  | l => new <- read_production l ;; Return (prods ++ new)
  end.

(** [buildGrammar] ([CFG.fromstring] in the source).  The text is read
    line by line; each non-blank line is [LHS -> RHS] with alternatives
    separated by [|]; a single-quoted token is a terminal, a bare token a
    nonterminal; an alternative with no tokens is the epsilon production;
    the first left-hand side is the start symbol. *)
Definition fromstring (text : pystr) : outcome CFG :=
  prods <- foldM read_line (split_on 10 text) [] ;;
  match prods with
  | [] => Raise (GrammarSyntaxError text)
  | p :: _ => Return (mkCFG (lhs p) prods)
  end.

(** [grammar.productions(rhs=sym)]: the productions whose right-hand
    side begins with [sym], in declaration order ([sym] is a nonterminal
    or a token, and a token is never the empty string). *)
Definition productions_rhs (g : CFG) (sym : symbol) : list Production :=
  filter (fun p => match rhs p with
                   | s :: _ => symbol_eqb s sym
                   | [] => false
                   end) (productions g).

(** [grammar.productions(lhs=name)] *)
Definition productions_lhs (g : CFG) (name : pystr) : list Production :=
  filter (fun p => Py.str_eqb (lhs p) name) (productions g).

(** [grammar.productions(empty=True)]: the epsilon productions, one per
    left-hand side. *)
Definition productions_empty (g : CFG) : list Production :=
  nodup Production_eq_dec
    (filter (fun p => match rhs p with [] => true | _ => false end)
            (productions g)).

Definition is_terminal_in (tok : pystr) (p : Production) : bool :=
  existsb (symbol_eqb (Terminal tok)) (rhs p).

(** The grammar's lexicon contains the token. *)
Definition covers (g : CFG) (tok : pystr) : bool :=
  existsb (is_terminal_in tok) (productions g).

(** [grammar.check_coverage(tokens)]: raises when some token is not a
    terminal of the grammar. *)
Definition check_coverage (g : CFG) (tokens : list pystr) : outcome unit :=
  match filter (fun tok => negb (covers g tok)) tokens with
  | [] => Return tt
  | missing =>
      Raise (ValueError "Grammar does not cover some of the input words" missing)
  end.

End Grammar.

(** The grammar text of [MusicalLanguageParser.__init__], lines 8-24 of
    the source. *)
Definition musical_grammar_text : pystr := Py.lit "
            S -> Composition
            Composition -> PhraseList
            PhraseList -> Phrase PhraseList_Prime
            PhraseList_Prime -> Phrase PhraseList_Prime | 
            Phrase -> NoteSequence | ChordSequence
            NoteSequence -> Note NoteSequence_Prime
            NoteSequence_Prime -> Note NoteSequence_Prime | 
            Note -> Pitch Duration
            Pitch -> 'A' | 'B' | 'C' | 'D' | 'E' | 'F' | 'G'
            Duration -> 'whole' | 'half' | 'quarter' | 'eighth' | 'sixteenth'
            ChordSequence -> Chord ChordSequence_Prime
            ChordSequence_Prime -> Chord ChordSequence_Prime | 
            Chord -> '(' PitchList ')' Duration
            PitchList -> Pitch PitchList_Prime
            PitchList_Prime -> Pitch PitchList_Prime | 
        ".

(* ================================================================== *)
(** * The chart parser *)
(* ================================================================== *)

(** Modelled from the spec: the Chart Parser Engine and the Tree
    Extractor (sections 3, 4.3 and 4.4).  The source obtains both from the
    parsing library ([ChartParser(self.grammar)] with its default
    bottom-up left-corner strategy), whose code is not part of the
    repository.  Edges carry a span, a dotted production and, in the
    chart, the lists of child edges they were built from; the chart is
    filled from an agenda; trees are read off the complete edges that
    span the whole input and are rooted at the start symbol. *)
Module Chart.

Inductive Edge : Type :=
| TreeEdge (start_ end_ : nat) (lhs_ : pystr) (rhs_ : list symbol) (dot : nat)
| LeafEdge (leaf : pystr) (index : nat).

Definition Edge_eq_dec (a b : Edge) : {a = b} + {a <> b}.
Proof.
  decide equality;
    try apply Nat.eq_dec;
    try apply (list_eq_dec symbol_eq_dec);
    apply (list_eq_dec N.eq_dec).
Defined.

Definition Edge_eqb (a b : Edge) : bool :=
  if Edge_eq_dec a b then true else false.

Definition edge_start (e : Edge) : nat :=
  match e with TreeEdge s _ _ _ _ => s | LeafEdge _ i => i end.

Definition edge_end (e : Edge) : nat :=
  match e with TreeEdge _ e' _ _ _ => e' | LeafEdge _ i => S i end.

Definition edge_lhs (e : Edge) : symbol :=
  match e with
  | TreeEdge _ _ l _ _ => Nonterminal l
  | LeafEdge leaf _ => Terminal leaf
  end.

Definition is_complete (e : Edge) : bool :=
  match e with
  | TreeEdge _ _ _ r d => d =? length r
  | LeafEdge _ _ => true
  end.

Definition is_incomplete (e : Edge) : bool := negb (is_complete e).

Definition nextsym (e : Edge) : option symbol :=
  match e with
  | TreeEdge _ _ _ r d => nth_error r d
  | LeafEdge _ _ => None
  end.

Definition move_dot_forward (e : Edge) (new_end : nat) : Edge :=
  match e with
  | TreeEdge s _ l r d => TreeEdge s new_end l r (S d)
  | LeafEdge _ _ => e
  end.

Definition from_production (p : Production) (index : nat) : Edge :=
  TreeEdge index index (lhs p) (rhs p) 0.

(** A child pointer list: the child edges an edge was built from. *)
Definition cpl : Type := list Edge.

Definition cpl_eq_dec : forall a b : cpl, {a = b} + {a <> b} :=
  list_eq_dec Edge_eq_dec.

(** The chart: the tokens and, for each edge in insertion order, its
    child pointer lists in insertion order. *)
Record Chart : Type := mkChart
  { tokens : list pystr;
    edge_to_cpls : list (Edge * list cpl) }.

Definition empty_chart (toks : list pystr) : Chart := mkChart toks [].

Definition num_leaves (c : Chart) : nat := length (tokens c).

Definition edges (c : Chart) : list Edge := map fst (edge_to_cpls c).

Fixpoint lookup {V : Type} (e : Edge) (m : list (Edge * V)) : option V :=
  match m with
  | [] => None
  | (e', v) :: m' => if Edge_eq_dec e e' then Some v else lookup e m'
  end.

Definition child_pointer_lists (c : Chart) (e : Edge) : list cpl :=
  match lookup e (edge_to_cpls c) with
  | Some cpls => cpls
  | None => []
  end.

Fixpoint set_cpls (e : Edge) (cpls : list cpl) (m : list (Edge * list cpl))
  : list (Edge * list cpl) :=
  match m with
  | [] => [(e, cpls)]
  | (e', v) :: m' =>
      if Edge_eq_dec e e' then (e', cpls) :: m' else (e', v) :: set_cpls e cpls m'
  end.

(** Registers the child pointer lists that are new for the edge; tells
    whether there was one. *)
Fixpoint add_cpls (old new : list cpl) : list cpl * bool :=
  match new with
  | [] => (old, false)
  | x :: new' =>
      if in_dec cpl_eq_dec x old then add_cpls old new'
      else (fst (add_cpls (old ++ [x]) new'), true)
  end.

(** [chart.insert(edge, *child_pointer_lists)]: adds the edge if it is
    new, then its new child pointer lists; the result tells whether the
    chart was modified by a new child pointer list. *)
Definition insert (c : Chart) (e : Edge) (new : list cpl) : Chart * bool :=
  let '(cpls, modified) := add_cpls (child_pointer_lists c e) new in
  (mkChart (tokens c) (set_cpls e cpls (edge_to_cpls c)), modified).

(** [chart.insert_with_backpointer(new_edge, previous_edge, child_edge)] *)
Definition insert_with_backpointer (c : Chart) (new_edge previous child : Edge)
  : Chart * bool :=
  insert c new_edge
    (map (fun l => l ++ [child]) (child_pointer_lists c previous)).

(** [chart.select(...)]: the edges that meet the restrictions, in
    insertion order.  A loop over a selection goes through the edges
    that were in the chart when the loop started. *)
Definition select (c : Chart) (restr : Edge -> bool) : list Edge :=
  filter restr (edges c).

Definition opt_symbol_eqb (a : option symbol) (b : symbol) : bool :=
  match a with Some s => symbol_eqb s b | None => false end.

(** The state of a rule application: the chart and the edges yielded so
    far. *)
Definition yielding : Type := (Chart * list Edge)%type.

Definition yield_if (st : yielding) (r : Chart * bool) (e : Edge) : yielding :=
  (fst r, if snd r then snd st ++ [e] else snd st).

(** [LeafInitRule.apply] *)
Definition LeafInitRule (c : Chart) : yielding :=
  fold_left
    (fun st index =>
       let new_edge := LeafEdge (nth index (tokens c) []) index in
       yield_if st (insert (fst st) new_edge [[]]) new_edge)
    (seq 0 (num_leaves c)) (c, []).

(** [EmptyPredictRule.apply] *)
Definition EmptyPredictRule (g : CFG) (c : Chart) : yielding :=
  fold_left
    (fun st prod =>
       fold_left
         (fun st index =>
            let new_edge := from_production prod index in
            yield_if st (insert (fst st) new_edge [[]]) new_edge)
         (seq 0 (num_leaves c + 1)) st)
    (Grammar.productions_empty g) (c, []).

(** [BottomUpPredictCombineRule.apply] *)
Definition BottomUpPredictCombineRule (g : CFG) (c : Chart) (edge : Edge)
  : yielding :=
  if is_incomplete edge then (c, [])
  else
    fold_left
      (fun st prod =>
         let new_edge :=
           TreeEdge (edge_start edge) (edge_end edge) (lhs prod) (rhs prod) 1 in
         yield_if st (insert (fst st) new_edge [[edge]]) new_edge)
      (Grammar.productions_rhs g (edge_lhs edge)) (c, []).

(** [SingleEdgeFundamentalRule.apply] *)
Definition SingleEdgeFundamentalRule (c : Chart) (edge : Edge) : yielding :=
  if is_incomplete edge then
    fold_left
      (fun st right_edge =>
         let new_edge := move_dot_forward edge (edge_end right_edge) in
         yield_if st
           (insert_with_backpointer (fst st) new_edge edge right_edge) new_edge)
      (select c (fun r =>
         (edge_start r =? edge_end edge) && is_complete r
         && opt_symbol_eqb (nextsym edge) (edge_lhs r)))
      (c, [])
  else
    fold_left
      (fun st left_edge =>
         let new_edge := move_dot_forward left_edge (edge_end edge) in
         yield_if st
           (insert_with_backpointer (fst st) new_edge left_edge edge) new_edge)
      (select c (fun l =>
         (edge_end l =? edge_start edge) && is_incomplete l
         && opt_symbol_eqb (nextsym l) (edge_lhs edge)))
      (c, []).

(** The agenda is a stack: [agenda.pop()] takes its last element and
    [agenda += new_edges] pushes at the end. *)
Definition agenda_state : Type := (Chart * list Edge)%type.

(** One round of [while agenda:]; [inr] when the agenda is empty. *)
Definition agenda_step (g : CFG) (st : agenda_state) : agenda_state + Chart :=
  let '(c, agenda) := st in
  match rev agenda with
  | [] => inr c
  | edge :: below =>
      let '(c1, new1) := BottomUpPredictCombineRule g c edge in
      let '(c2, new2) := SingleEdgeFundamentalRule c1 edge in
      inl (c2, rev below ++ new1 ++ new2)
  end.

(** At most [fuel] rounds of the loop. *)
Fixpoint agenda_loop (g : CFG) (fuel : positive) (st : agenda_state)
  : agenda_state + Chart :=
  match fuel with
  | xH => agenda_step g st
  | xO p =>
      match agenda_loop g p st with
      | inl st' => agenda_loop g p st'
      | inr c => inr c
      end
  | xI p =>
      match agenda_step g st with
      | inl st1 =>
          match agenda_loop g p st1 with
          | inl st2 => agenda_loop g p st2
          | inr c => inr c
          end
      | inr c => inr c
      end
  end.

(** The number of edges a chart over [n] tokens can hold. *)
Definition edge_bound (g : CFG) (n : nat) : N :=
  N.of_nat n
  + N.of_nat (S n) * N.of_nat (S n)
    * N.of_nat (list_sum (map (fun p => S (length (rhs p))) (productions g))).

Definition max_rhs (g : CFG) : nat :=
  list_max (map (fun p => length (rhs p)) (productions g)).

(** Rounds allowed to the agenda loop: one more than the number of
    pairs of an edge and a child pointer list, plus the edges. *)
Definition agenda_fuel (g : CFG) (n : nat) : positive :=
  N.succ_pos
    (edge_bound g n * (edge_bound g n + 1) ^ N.of_nat (max_rhs g)
     + edge_bound g n).

(** [ChartParser.chart_parse(tokens)] *)
Definition chart_parse (g : CFG) (toks : list pystr) : outcome Chart :=
  _ <- Grammar.check_coverage g toks ;;
  let chart := empty_chart toks in
  let chart := fst (LeafInitRule chart) in
  let chart := fst (EmptyPredictRule g chart) in
  let agenda := rev (edges chart) in
  match agenda_loop g (agenda_fuel g (length toks)) (chart, agenda) with
  | inr chart => Return chart
  | inl _ => Diverge
  end.

(** [itertools.product] of the choices *)
Fixpoint product {A : Type} (choices : list (list A)) : list (list A) :=
  match choices with
  | [] => [[]]
  | c :: rest => flat_map (fun x => map (cons x) (product rest)) c
  end.

Definition Memo : Type := list (Edge * list Tree).

(** [chart._trees(edge, complete=True, memo, Tree)]; [fuel] bounds the
    depth of the recursion. *)
Fixpoint _trees (fuel : nat) (c : Chart) (edge : Edge) (memo : Memo)
  : outcome (list Tree * Memo) :=
  match fuel with
  | O => Diverge
  | S fuel' =>
      match lookup edge memo with
      | Some ts => Return (ts, memo)
      | None =>
          if is_incomplete edge then Return ([], memo)
          else
            match edge with
            | LeafEdge _ _ =>
                match nth_error (tokens c) (edge_start edge) with
                | Some leaf => Return ([Leaf leaf], (edge, [Leaf leaf]) :: memo)
                | None => Raise (IndexError "list index out of range")
                end
            | TreeEdge _ _ lhs_ _ _ =>
                r <- foldM
                       (fun (acc : list Tree * Memo) (l : cpl) =>
                          r <- foldM
                                 (fun (acc' : list (list Tree) * Memo) cp =>
                                    r <- _trees fuel' c cp (snd acc') ;;
                                    Return (fst acc' ++ [fst r], snd r))
                                 l ([], snd acc) ;;
                          Return (fst acc ++ map (Node lhs_) (product (fst r)),
                                  snd r))
                       (child_pointer_lists c edge) ([], (edge, []) :: memo) ;;
                Return (fst r, (edge, fst r) :: snd r)
            end
      end
  end.

(** [chart.trees(edge, complete=True)]: a fresh memo per call. *)
Definition trees (c : Chart) (edge : Edge) : outcome (list Tree) :=
  r <- _trees (S (length (edges c))) c edge [] ;;
  Return (fst r).

(** [chart.parses(root)]: a generator over the trees of every edge that
    spans the input and is rooted at [root]. *)
Fixpoint parses_from (c : Chart) (roots : list Edge) : iterator Tree :=
  match roots with
  | [] => iter []
  | edge :: rest =>
      match trees c edge with
      | Return ts =>
          let it := parses_from c rest in Iterator (ts ++ items it) (fin it)
      | Raise e => Iterator [] (Raises e)
      | Diverge => Iterator [] Hangs
      end
  end.

Definition parses (c : Chart) (root : pystr) : iterator Tree :=
  parses_from c
    (select c (fun e =>
       (edge_start e =? 0) && (edge_end e =? num_leaves c)
       && symbol_eqb (edge_lhs e) (Nonterminal root))).

End Chart.

(** The parser interface: [parse(tokens)] builds whatever it needs and
    hands back an iterator over the parse trees. *)
Record ParserI : Type := mkParser
  { parser_parse : list pystr -> outcome (iterator Tree) }.

(** Modelled from the spec: recognize, then extract (section 4.5);
    [ChartParser(grammar)] in the source.  Its [parse] builds the chart
    and returns [iter(chart.parses(grammar.start()))]: the chart is built
    at the call, the trees are read off as the iterator is consumed. *)
Definition ChartParser (g : CFG) : ParserI :=
  mkParser (fun toks =>
    chart <- Chart.chart_parse g toks ;;
    Return (Chart.parses chart (start g))).

(* ================================================================== *)
(** * Sentence generation *)
(* ================================================================== *)

(** Modelled from the spec: up to [n] sentences, by depth-first expansion
    of the productions bounded by a recursion depth (section 4.5;
    [generate] of the parsing library, whose code is not part of the
    repository).  The expansion is a nest of generators, and the
    interpreter allows only so many calls inside one another: [frames]
    is the number of calls that may still nest when the iterator is
    consumed, and each generator that runs takes one of them. *)
Module Generate.

Definition sentence : Type := list pystr.

(** What the interpreter raises when a call would nest too deep. *)
Definition recursion_error : Exception :=
  RecursionError "maximum recursion depth exceeded".

(** What the expansion makes of it. *)
Definition infinite_recursion : Exception :=
  RuntimeError "The grammar has rule(s) that yield infinite recursion!".

Definition islice_refusal : Exception :=
  ValueError
    "Stop argument for islice() must be None or an integer: 0 <= x <= sys.maxsize."
    [].

(** [sys.getrecursionlimit()] as the interpreter sets it when it starts. *)
Definition recursion_limit : nat := 1000.

Definition sys_maxsize : Z := 2 ^ 63 - 1.

(** A generator that has no frame left to run in. *)
Definition no_frame : iterator sentence := Iterator [] (Raises recursion_error).

(** [for x in xs: for y in body(x): yield y], where the iterator over
    [xs] ends as [fin_] says: what the bodies yield, in order, up to the
    first one that does not end normally. *)
Fixpoint yield_each {A : Type} (xs : list A) (fin_ : ending)
    (body : A -> iterator sentence) : iterator sentence :=
  match xs with
  | [] => Iterator [] fin_
  | x :: rest =>
      let inner := body x in
      match fin inner with
      | StopIteration =>
          let more := yield_each rest fin_ body in
          Iterator (items inner ++ items more) (fin more)
      | Raises e => Iterator (items inner) (Raises e)
      | Hangs => Iterator (items inner) Hangs
      end
  end.

(** [try: ... except RecursionError as error: raise RuntimeError(...)]
    around the loops of a generator. *)
Definition except_recursion (it : iterator sentence) : iterator sentence :=
  match fin it with
  | Raises (RecursionError _) => Iterator (items it) (Raises infinite_recursion)
  | _ => it
  end.

(** [_generate_all(grammar, items, depth)]: every sentence of the first
    item followed by every sentence of the others; the empty sentence
    for no items.
    [_generate_one(grammar, item, depth)]: nothing unless [depth > 0]; a
    terminal yields itself; a nonterminal yields the sentences of each
    of its productions, in declaration order, at one depth less. *)
Fixpoint _generate_all (frames : nat) (g : CFG) (items_ : list symbol) (depth : Z)
  {struct frames} : iterator sentence :=
  match frames with
  | O => no_frame
  | S frames =>
      match items_ with
      | [] => iter [[]]
      | item :: rest =>
          except_recursion
            (let ones := _generate_one frames g item depth in
             yield_each (items ones) (fin ones)
               (fun frag1 =>
                  let others := _generate_all frames g rest depth in
                  Iterator (map (app frag1) (items others)) (fin others)))
      end
  end
with _generate_one (frames : nat) (g : CFG) (item : symbol) (depth : Z)
  {struct frames} : iterator sentence :=
  match frames with
  | O => no_frame
  | S frames =>
      if (0 <? depth)%Z then
        match item with
        | Nonterminal name =>
            match frames with
            | O => no_frame      (* the call [grammar.productions(lhs=item)] *)
            | S _ =>
                yield_each (Grammar.productions_lhs g name) StopIteration
                  (fun prod => _generate_all frames g (rhs prod) (depth - 1))
            end
        | Terminal w => iter [[w]]
        end
      else iter []
  end.

(** [itertools.islice(it, stop)]: the first [stop] items; the underlying
    iterator is not asked for more, so how it would go on does not
    show. *)
Definition islice {A : Type} (it : iterator A) (stop : nat) : iterator A :=
  if stop <=? length (items it) then iter (firstn stop (items it)) else it.

(** [generate(grammar, depth=depth, n=n)]: the sentences from the start
    symbol, cut to the first [n]; a cut that is negative or too large is
    refused when the iterator is made. *)
Definition generate (frames : nat) (g : CFG) (depth n : Z)
  : outcome (iterator sentence) :=
  let all := _generate_all frames g [Nonterminal (start g)] depth in
  if ((n <? 0) || (sys_maxsize <? n))%Z then Raise islice_refusal
  else Return (islice all (Z.to_nat n)).

End Generate.

(* ================================================================== *)
(** * MusicalLanguageParser *)
(* ================================================================== *)

Record MusicalLanguageParser : Type := mkSelf
  { grammar_str : pystr;
    grammar : CFG;
    parser : ParserI;
    debug : bool }.

(** [MusicalLanguageParser(debug)].  The [debug] flag only guards calls
    to [print]; what is printed is not part of the model. *)
Definition __init__ (debug_ : bool) : outcome MusicalLanguageParser :=
  g <- Grammar.fromstring musical_grammar_text ;;
  Return (mkSelf musical_grammar_text g (ChartParser g) debug_).

Definition lparen : N := 40.
Definition rparen : N := 41.

(** [tokenize(text)] *)
Definition tokenize (self : MusicalLanguageParser) (text : pystr) : list pystr :=
  let text := Py.replace rparen (Py.lit " ) ")
                (Py.replace lparen (Py.lit " ( ") text) in
  filter (fun token => Py.truthy (Py.strip token)) (Py.split text).

(** [parse(text)] *)
Definition parse (self : MusicalLanguageParser) (text : pystr)
  : outcome (list Tree) :=
  let tokens := tokenize self text in
  try_except
    (it <- parser_parse (parser self) tokens ;;
     trees <- list_ it ;;
     Return trees)
    (fun e => Return []).

(** [is_valid(text)] *)
Definition is_valid (self : MusicalLanguageParser) (text : pystr) : outcome bool :=
  trees <- parse self text ;;
  Return (0 <? length trees).

(** The manual examples of [generate_examples]. *)
Definition manual_examples : list pystr :=
  map Py.lit
    [ "C quarter";
      "A whole B half";
      "C quarter D half E whole";
      "( C E G ) whole";
      "C quarter ( D F A ) half" ]%string.

Section GenerateExamples.

(** The imported [generate]. *)
Variable generate : CFG -> Z -> Z -> outcome (iterator (list pystr)).

(** The [for] loop of [generate_examples]: each sentence is joined and
    appended; the loop leaves as soon as [n] examples are there, and
    otherwise ends the way the generator ends. *)
Fixpoint collect (n : Z) (examples : list pystr)
    (sentences : list (list pystr)) (ending_ : ending)
  : outcome (list pystr) :=
  match sentences with
  | [] =>
      match ending_ with
      | StopIteration => Return examples
      | Raises e => Raise e
      | Hangs => Diverge
      end
  | sentence :: rest =>
      let examples := examples ++ [Py.join (Py.lit " ") sentence] in
      if (n <=? Z.of_nat (length examples))%Z then Return examples
      else collect n examples rest ending_
  end.

(** [generate_examples(n, depth)] *)
Definition generate_examples (self : MusicalLanguageParser) (n depth : Z)
  : outcome (list pystr) :=
  try_except
    (it <- generate (grammar self) depth n ;;
     collect n [] (items it) (fin it))
    (fun e => Return manual_examples).

End GenerateExamples.

(* ================================================================== *)
(** * The objects and what they keep between calls *)
(* ================================================================== *)

(** The definitions above give what one call returns.  Here the objects
    keep state: a call of a method gets the object as the calls before
    left it, and leaves it to the calls after. *)
Module Stateful.

Section Objects.

(** What the parser object, and the objects it works on, hold. *)
Variable Store : Type.

(** The generator that a parser hands back: consuming it runs its code
    on the store of that moment; it yields trees, ends, and leaves a
    store. *)
Definition generator : Type := Store -> iterator Tree * Store.

(** A parser object: a call of [parse(tokens)] reads the store and may
    change it. *)
Record ParserObject : Type := mkParserObject
  { parse_method : Store -> list pystr -> outcome generator * Store }.

(** A [MusicalLanguageParser] object: its four attributes, and the store
    of its parser. *)
Record Object : Type := mkObject
  { self_grammar_str : pystr;
    self_grammar : CFG;
    self_parser : ParserObject;
    self_debug : bool;
    self_store : Store }.

Definition with_store (self : Object) (s : Store) : Object :=
  mkObject (self_grammar_str self) (self_grammar self) (self_parser self)
           (self_debug self) s.

(** What a parser object answers from the store [s]: the outcome of a
    call and of consuming its generator at once. *)
Definition answers (p : ParserObject) (s : Store) : ParserI :=
  mkParser (fun toks =>
    match parse_method p s toks with
    | (Return gen, s1) => Return (fst (gen s1))
    | (Raise e, _) => Raise e
    | (Diverge, _) => Diverge
    end).

(** The object as it is at one moment. *)
Definition snapshot (self : Object) : MusicalLanguageParser :=
  mkSelf (self_grammar_str self) (self_grammar self)
         (answers (self_parser self) (self_store self)) (self_debug self).

(** [parse(text)], with the object as the call leaves it.  [tokenize]
    and [parse] assign no attribute of [self]; what changes is what the
    call of the parser and [list(...)] of its generator change. *)
Definition parse (self : Object) (text : pystr) : outcome (list Tree) * Object :=
  let tokens := tokenize (snapshot self) text in
  match parse_method (self_parser self) (self_store self) tokens with
  | (Return gen, s1) =>
      let (it, s2) := gen s1 in
      (try_except (list_ it) (fun e => Return []), with_store self s2)
  | (Raise e, s1) => (Return [], with_store self s1)
  | (Diverge, s1) => (Diverge, with_store self s1)
  end.

(** Two calls in a row on one object, [a = p.parse(text)] and then
    [b = p.parse(text)]: the second call meets the object as the first
    one left it. *)
Definition parse_twice (self : Object) (text : pystr)
  : outcome (list Tree * list Tree) :=
  let (first, self1) := parse self text in
  a <- first ;;
  let (second, self2) := parse self1 text in
  b <- second ;;
  Return (a, b).


End Objects.

(** Modelled from the spec: the grammar is immutable once it is built,
    and each invocation owns its own chart (section 5).  The store of
    the chart parser holds the charts of the invocations so far.  A call
    checks the tokens, allocates a chart and fills it; the generator it
    hands back reads the trees off that chart when it is consumed. *)
Definition ChartParserObject (g : CFG) : ParserObject (list Chart.Chart) :=
  mkParserObject (fun charts toks =>
    match Chart.chart_parse g toks with
    | Return chart =>
        let address := length charts in
        (Return (fun charts' =>
                   match nth_error charts' address with
                   | Some chart' => (Chart.parses chart' (start g), charts')
                   | None => (Iterator [] (Raises (IndexError "chart")), charts')
                   end),
         charts ++ [chart])
    | Raise e => (Raise e, charts)
    | Diverge => (Diverge, charts)
    end).

(** [MusicalLanguageParser(debug)]: no chart yet. *)
Definition __init__ (debug_ : bool) : outcome (Object (list Chart.Chart)) :=
  g <- Grammar.fromstring musical_grammar_text ;;
  Return (mkObject musical_grammar_text g (ChartParserObject g) debug_ []).

(** A parser object that remembers having been called: it yields a tree
    the first time and none afterwards. *)
Definition once_parser : ParserObject bool :=
  mkParserObject (fun (used : bool) (toks : list pystr) =>
    (Return (fun s : bool => (iter (if used then [] else [Leaf []]), s)), true)).

End Stateful.

(* ================================================================== *)
(** * The grammar as a table, and vocabulary for the statements *)
(* ================================================================== *)

Definition NT (name : string) : symbol := Nonterminal (Py.lit name).
Definition T (word : string) : symbol := Terminal (Py.lit word).
Definition rule (l : string) (r : list symbol) : Production :=
  mkProduction (Py.lit l) r.

(** The productions that [musical_grammar_text] denotes, in declaration
    order. *)
Definition musical_grammar : CFG :=
  mkCFG (Py.lit "S")
    [ rule "S" [NT "Composition"];
      rule "Composition" [NT "PhraseList"];
      rule "PhraseList" [NT "Phrase"; NT "PhraseList_Prime"];
      rule "PhraseList_Prime" [NT "Phrase"; NT "PhraseList_Prime"];
      rule "PhraseList_Prime" [];
      rule "Phrase" [NT "NoteSequence"];
      rule "Phrase" [NT "ChordSequence"];
      rule "NoteSequence" [NT "Note"; NT "NoteSequence_Prime"];
      rule "NoteSequence_Prime" [NT "Note"; NT "NoteSequence_Prime"];
      rule "NoteSequence_Prime" [];
      rule "Note" [NT "Pitch"; NT "Duration"];
      rule "Pitch" [T "A"]; rule "Pitch" [T "B"]; rule "Pitch" [T "C"];
      rule "Pitch" [T "D"]; rule "Pitch" [T "E"]; rule "Pitch" [T "F"];
      rule "Pitch" [T "G"];
      rule "Duration" [T "whole"]; rule "Duration" [T "half"];
      rule "Duration" [T "quarter"]; rule "Duration" [T "eighth"];
      rule "Duration" [T "sixteenth"];
      rule "ChordSequence" [NT "Chord"; NT "ChordSequence_Prime"];
      rule "ChordSequence_Prime" [NT "Chord"; NT "ChordSequence_Prime"];
      rule "ChordSequence_Prime" [];
      rule "Chord" [T "("; NT "PitchList"; T ")"; NT "Duration"];
      rule "PitchList" [NT "Pitch"; NT "PitchList_Prime"];
      rule "PitchList_Prime" [NT "Pitch"; NT "PitchList_Prime"];
      rule "PitchList_Prime" [] ].

(** The object that [MusicalLanguageParser(debug)] builds. *)
Definition musical_parser (debug_ : bool) : MusicalLanguageParser :=
  mkSelf musical_grammar_text musical_grammar (ChartParser musical_grammar) debug_.

(** Section 4.2 read as a scanner: a parenthesis ends the current word
    and is a token of its own, whitespace ends the current word, any
    other character joins it. *)
Fixpoint scan_from (word : pystr) (text : pystr) : list pystr :=
  match text with
  | [] => Py.flush word
  | c :: rest =>
      if ((c =? lparen) || (c =? rparen))%N then
        Py.flush word ++ [c] :: scan_from [] rest
      else if Py.isspace c then Py.flush word ++ scan_from [] rest
      else scan_from (c :: word) rest
  end.

Definition tokenize_spec (text : pystr) : list pystr := scan_from [] text.

Definition whitespace_only (text : pystr) : Prop :=
  forall c, In c text -> Py.isspace c = true.

Definition nd (name : string) (children : list Tree) : Tree :=
  Node (Py.lit name) children.
Definition lf (word : string) : Tree := Leaf (Py.lit word).

Definition labelled (name : string) (t : Tree) : bool :=
  match t with
  | Node l _ => Py.str_eqb l (Py.lit name)
  | Leaf _ => false
  end.

Definition children_of (t : Tree) : list Tree :=
  match t with
  | Node _ cs => cs
  | Leaf _ => []
  end.

(** A tree and all the trees below it, in preorder. *)
Fixpoint subtrees (t : Tree) : list Tree :=
  t :: match t with
       | Node _ cs => flat_map subtrees cs
       | Leaf _ => []
       end.

(** The trees strictly below [t]. *)
Definition descendants (t : Tree) : list Tree := flat_map subtrees (children_of t).

(** The tokens at the leaves, left to right. *)
Fixpoint leaves (t : Tree) : list pystr :=
  match t with
  | Node _ cs => flat_map leaves cs
  | Leaf w => [w]
  end.

Definition root_symbol (t : Tree) : symbol :=
  match t with
  | Node l _ => Nonterminal l
  | Leaf w => Terminal w
  end.

(** [t] is a derivation tree of [g]: every inner node with its children
    is an instance of a production. *)
Fixpoint derivation (g : CFG) (t : Tree) : bool :=
  match t with
  | Node l cs =>
      (if in_dec Production_eq_dec (mkProduction l (map root_symbol cs))
            (productions g) then true else false)
      && forallb (derivation g) cs
  | Leaf _ => true
  end.

(** The claim of the end-to-end scenario for a chord, taken literally: a
    node labelled Chord three of whose children are labelled Pitch. *)
Definition chord_with_3_pitch_children (t : Tree) : Prop :=
  exists chord, In chord (subtrees t) /\ labelled "Chord" chord = true /\
    length (filter (labelled "Pitch") (children_of chord)) = 3.

Definition chord_with_3_pitch_descendants (t : Tree) : Prop :=
  exists chord, In chord (subtrees t) /\ labelled "Chord" chord = true /\
    length (filter (labelled "Pitch") (descendants chord)) = 3.

(** The two parse trees of "C quarter D half": the notes form one phrase,
    or a phrase each. *)
Definition note (pitch duration : string) : Tree :=
  nd "Note" [nd "Pitch" [lf pitch]; nd "Duration" [lf duration]].

Definition tree_one_phrase : Tree :=
  nd "S" [nd "Composition" [nd "PhraseList"
    [ nd "Phrase" [nd "NoteSequence"
        [ note "C" "quarter";
          nd "NoteSequence_Prime"
            [note "D" "half"; nd "NoteSequence_Prime" []] ]];
      nd "PhraseList_Prime" [] ]]].

Definition tree_two_phrases : Tree :=
  nd "S" [nd "Composition" [nd "PhraseList"
    [ nd "Phrase" [nd "NoteSequence"
        [note "C" "quarter"; nd "NoteSequence_Prime" []]];
      nd "PhraseList_Prime"
        [ nd "Phrase" [nd "NoteSequence"
            [note "D" "half"; nd "NoteSequence_Prime" []]];
          nd "PhraseList_Prime" [] ] ]]].

(** The parse tree of "( C E G ) whole". *)
Definition tree_chord : Tree :=
  nd "S" [nd "Composition" [nd "PhraseList"
    [ nd "Phrase" [nd "ChordSequence"
        [ nd "Chord"
            [ lf "(";
              nd "PitchList"
                [ nd "Pitch" [lf "C"];
                  nd "PitchList_Prime"
                    [ nd "Pitch" [lf "E"];
                      nd "PitchList_Prime"
                        [nd "Pitch" [lf "G"]; nd "PitchList_Prime" []] ] ];
              lf ")";
              nd "Duration" [lf "whole"] ];
          nd "ChordSequence_Prime" [] ]];
      nd "PhraseList_Prime" [] ]]].

(* ================================================================== *)
(** * Vocabulary of the proofs *)
(* ================================================================== *)

Definition clean (word : pystr) : Prop :=
  forall c, In c word -> Py.isspace c = false.

Definition paren_free (word : pystr) : Prop :=
  ~ In lparen word /\ ~ In rparen word.

Definition uncovered_H : Exception :=
  ValueError "Grammar does not cover some of the input words" [Py.lit "H"].

(** A parser object whose parser hands back an iterator that raises
    after one tree. *)
Definition broken_iterator : iterator Tree :=
  Iterator [Leaf (Py.lit "C")] (Raises (RuntimeError "extraction failed")).

Definition broken_parser : MusicalLanguageParser :=
  mkSelf musical_grammar_text musical_grammar
         (mkParser (fun _ => Return broken_iterator)) false.

Definition C_quarter_D_half : pystr := Py.lit "C quarter D half".

Definition chord_text : pystr := Py.lit "( C E G ) whole".

(** A derivation tree of the start symbol for the tokens of [text]. *)
Definition parse_tree_of (self : MusicalLanguageParser) (text : pystr) (t : Tree)
  : Prop :=
  derivation (grammar self) t = true
  /\ root_symbol t = Nonterminal (start (grammar self))
  /\ leaves t = tokenize self text.

Definition chord_node : Tree :=
  nd "Chord"
    [ lf "(";
      nd "PitchList"
        [ nd "Pitch" [lf "C"];
          nd "PitchList_Prime"
            [ nd "Pitch" [lf "E"];
              nd "PitchList_Prime"
                [nd "Pitch" [lf "G"]; nd "PitchList_Prime" []] ] ];
      lf ")";
      nd "Duration" [lf "whole"] ].

Definition joined (sentences : list (list pystr)) : list pystr :=
  map (Py.join (Py.lit " ")) sentences.

(** The number of examples after which the loop leaves. *)
Definition wanted (n : Z) : nat := Z.to_nat (Z.max n 1).

Definition prime_nonterminals : list string :=
  ["PhraseList_Prime"; "NoteSequence_Prime"; "ChordSequence_Prime";
   "PitchList_Prime"]%string.

(** [k] rounds of the agenda loop, one after the other. *)
Fixpoint rounds (g : CFG) (k : nat) (st : Chart.agenda_state)
  : Chart.agenda_state + Chart.Chart :=
  match k with
  | O => inl st
  | S k' =>
      match Chart.agenda_step g st with
      | inl st' => rounds g k' st'
      | inr c => inr c
      end
  end.

(** The lists over [U] of length at most [k]. *)
Fixpoint lists_upto {A : Type} (k : nat) (U : list A) : list (list A) :=
  match k with
  | O => [[]]
  | S k' => [] :: flat_map (fun x => map (cons x) (lists_upto k' U)) U
  end.

Definition edge_dot (e : Chart.Edge) : nat :=
  match e with
  | Chart.TreeEdge _ _ _ _ d => d
  | Chart.LeafEdge _ _ => 0
  end.

(** The number of child pointer lists in the chart. *)
Definition npairs (c : Chart.Chart) : nat :=
  list_sum (map (fun x => length (snd x)) (Chart.edge_to_cpls c)).

Definition tree_edges_of (s e : nat) (p : Production) : list Chart.Edge :=
  map (Chart.TreeEdge s e (lhs p) (rhs p)) (seq 0 (S (length (rhs p)))).

(** Every edge that a chart for [toks] can hold. *)
Definition all_edges (g : CFG) (toks : list pystr) : list Chart.Edge :=
  map (fun i => Chart.LeafEdge (nth i toks []) i) (seq 0 (length toks))
  ++ flat_map
       (fun s =>
          flat_map (fun e => flat_map (tree_edges_of s e) (productions g))
                   (seq 0 (S (length toks))))
       (seq 0 (S (length toks))).

Definition all_cpls (g : CFG) (toks : list pystr) : list Chart.cpl :=
  lists_upto (Chart.max_rhs g) (all_edges g toks).

(** The invariants of the chart for the tokens [toks] under the grammar
    [g]. *)
Module Invariant.
Section Invariant.

Variable g : CFG.
Variable toks : list pystr.

(** An edge that fits the tokens and the grammar. *)
Definition edge_ok (e : Chart.Edge) : Prop :=
  match e with
  | Chart.TreeEdge s e' l r d =>
      s <= length toks /\ e' <= length toks
      /\ In (mkProduction l r) (productions g) /\ d <= length r
  | Chart.LeafEdge leaf i => i < length toks /\ leaf = nth i toks []
  end.

Definition cpl_ok (e : Chart.Edge) (l : Chart.cpl) : Prop :=
  length l <= edge_dot e /\ Forall edge_ok l.

Definition entry_ok (x : Chart.Edge * list Chart.cpl) : Prop :=
  edge_ok (fst x) /\ NoDup (snd x) /\ Forall (cpl_ok (fst x)) (snd x).

(** The invariant of the chart while it is filled. *)
Definition chart_ok (c : Chart.Chart) : Prop :=
  Chart.tokens c = toks
  /\ NoDup (Chart.edges c)
  /\ Forall entry_ok (Chart.edge_to_cpls c).

(** The invariant of a rule application that started from [c0]: each
    yielded edge stands for a child pointer list that was added. *)
Definition loop_ok (c0 : Chart.Chart) (st : Chart.yielding) : Prop :=
  chart_ok (fst st)
  /\ Forall edge_ok (snd st)
  /\ npairs c0 + length (snd st) <= npairs (fst st).

Definition state_ok (st : Chart.agenda_state) : Prop :=
  chart_ok (fst st) /\ Forall edge_ok (snd st).

Definition pair_bound : nat :=
  length (all_edges g toks) * length (all_cpls g toks).

(** What decreases at each round: the child pointer lists still missing
    from the chart, plus the edges waiting on the agenda. *)
Definition measure (st : Chart.agenda_state) : nat :=
  (pair_bound - npairs (fst st)) + length (snd st).

End Invariant.
End Invariant.

(** The edges of the chart that the memo does not hold yet. *)
Definition unseen (c : Chart.Chart) (memo : Chart.Memo) : nat :=
  length (filter (fun e => match Chart.lookup e memo with
                           | None => true
                           | Some _ => false
                           end) (Chart.edges c)).

(** [memo'] holds every edge that [memo] holds. *)
Definition memo_le (memo memo' : Chart.Memo) : Prop :=
  forall e, Chart.lookup e memo' = None -> Chart.lookup e memo = None.

(** Finds an element in a list that is given in full. *)
Ltac find_in :=
  solve [vm_compute; repeat (first [left; reflexivity | right])].

(* ================================================================== *)
(** * Vocabulary of the further properties *)
(* ================================================================== *)

(** What a token looks like: a parenthesis on its own, or a non-empty
    word without whitespace and without parentheses. *)
Definition token_ok (tok : pystr) : Prop :=
  tok = [lparen] \/ tok = [rparen]
  \/ (tok <> [] /\ clean tok /\ paren_free tok).

(** The terminals of the musical grammar. *)
Definition lexicon : list pystr :=
  map Py.lit
    ["A"; "B"; "C"; "D"; "E"; "F"; "G";
     "whole"; "half"; "quarter"; "eighth"; "sixteenth"; "("; ")"]%string.

Definition in_lexicon (tok : pystr) : bool :=
  existsb (Py.str_eqb tok) lexicon.

(** The example lists of [test_parser] (lines 172-179 and 187-193). *)
Definition valid_examples : list pystr :=
  map Py.lit
    [ "C quarter";
      "C quarter D half";
      "( C E G ) whole";
      "C quarter ( E G B ) whole D half";
      "( C E G ) whole ( D F A ) half";
      "C quarter D half ( E G B ) whole F sixteenth" ]%string.

Definition invalid_examples : list pystr :=
  map Py.lit
    [ "quarter C";
      "C D quarter";
      "( C E G";
      "H quarter";
      "C long" ]%string.

(** A generator that yields one sentence and then never comes back. *)
Definition hanging_generate (g : CFG) (depth n : Z)
  : outcome (iterator (list pystr)) :=
  Return (Iterator [[Py.lit "C"; Py.lit "quarter"]] Hangs).

(* ================================================================== *)
(** * The console: what the methods print and read *)
(* ================================================================== *)

Module Console.

(** What goes to the standard output: the text of a [print] (a newline
    follows it), or the prompt of an [input]. *)
Inductive output : Type :=
| Print (text : pystr)
| Prompt (text : pystr).

(** How a run is cut short: by an exception of the embedding, by
    [input()] at the end of the input, or by a method called on a bare
    string. *)
Inductive failure : Type :=
| Uncaught (e : Exception)
| EOFError
| AttributeError.

Inductive ended (A : Type) : Type :=
| Done (a : A)
| Failed (f : failure)
| Forever.

Arguments Done {A} a.
Arguments Failed {A} f.
Arguments Forever {A}.

(** An action: how it ends, and what it has printed until then. *)
Definition act (A : Type) : Type := (ended A * list output)%type.

Definition ret {A : Type} (a : A) : act A := (Done a, []).

Definition and_then {A B : Type} (m : act A) (k : A -> act B) : act B :=
  match m with
  | (Done a, out) => (fst (k a), out ++ snd (k a))
  | (Failed f, out) => (Failed f, out)
  | (Forever, out) => (Forever, out)
  end.

Notation "x <<- m ;; k" := (and_then m (fun x => k))
  (at level 61, m at next level, right associativity).

Definition print (text : pystr) : act unit := (Done tt, [Print text]).

Definition print_if (cond : bool) (text : pystr) : act unit :=
  if cond then print text else ret tt.

Definition ended_of {A : Type} (o : outcome A) : ended A :=
  match o with
  | Return a => Done a
  | Raise e => Failed (Uncaught e)
  | Diverge => Forever
  end.

Fixpoint digits (d : Decimal.uint) : pystr :=
  match d with
  | Decimal.Nil => []
  | Decimal.D0 d => 48%N :: digits d
  | Decimal.D1 d => 49%N :: digits d
  | Decimal.D2 d => 50%N :: digits d
  | Decimal.D3 d => 51%N :: digits d
  | Decimal.D4 d => 52%N :: digits d
  | Decimal.D5 d => 53%N :: digits d
  | Decimal.D6 d => 54%N :: digits d
  | Decimal.D7 d => 55%N :: digits d
  | Decimal.D8 d => 56%N :: digits d
  | Decimal.D9 d => 57%N :: digits d
  end.

(** [str(n)] for a natural number. *)
Definition str_of_nat (n : nat) : pystr := digits (Nat.to_uint n).

(** A text that begins with a newline. *)
Definition nl (text : string) : pystr := 10%N :: Py.lit text.

Definition no_trees_message : pystr := Py.lit "No valid parse trees found.".

Definition heading (k : nat) : pystr :=
  Py.lit "Parse Tree " ++ str_of_nat k ++ Py.lit ":".

(** The line that reports on a sentence. *)
Definition verdict (text : pystr) (valid : bool) : pystr :=
  Py.lit "'" ++ text ++ Py.lit "': "
  ++ (if valid then Py.lit "VALID" else Py.lit "INVALID").

Definition banner : list output :=
  [ Print (nl "=== Interactive Musical Language Mode ===");
    Print (Py.lit "Enter musical sentences to check if they're valid or 'q' to quit.");
    Print (Py.lit "Example format: 'C quarter D half' or '( C E G ) whole'");
    Print (Py.lit "Valid pitches: A, B, C, D, E, F, G");
    Print (Py.lit "Valid durations: whole, half, quarter, eighth, sixteenth") ].

Definition enter_prompt : output :=
  Prompt (nl "Enter a musical sentence (or 'q' to quit): ").

Definition show_prompt : output := Prompt (Py.lit "Show parse tree? (y/n): ").

Definition exiting : output := Print (Py.lit "Exiting interactive mode.").

Definition hints : list output :=
  [ Print (Py.lit "The sentence doesn't conform to the musical language grammar.");
    Print (Py.lit "Try again or enter 'q' to quit.") ].

(** The output [out] comes before that of the rest of a session. *)
Definition after {A : Type} (out : list output) (r : act A * list pystr)
  : act A * list pystr :=
  ((fst (fst r), out ++ snd (fst r)), snd r).

Section Console.

(** What the interpreter and the parsing library supply: [str(tokens)]
    for a list of strings, [str(e)] for an exception, the drawing that
    [tree.pretty_print()] prints, and [s.lower()]. *)
Variable repr_tokens : list pystr -> pystr.
Variable str_of_exception : Exception -> pystr.
Variable pretty : Tree -> pystr.
Variable lower : pystr -> pystr.

(** [tokenize(text)], with what it prints. *)
Definition tokenize_io (self : MusicalLanguageParser) (text : pystr)
  : act (list pystr) :=
  let tokens := tokenize self text in
  _ <<- print_if (debug self)
                 (Py.lit "Tokenized input: " ++ repr_tokens tokens) ;;
  ret tokens.

(** [parse(text)], with what it prints. *)
Definition parse_io (self : MusicalLanguageParser) (text : pystr)
  : act (list Tree) :=
  tokens <<- tokenize_io self text ;;
  match (it <- parser_parse (parser self) tokens ;; list_ it) with
  | Return trees =>
      _ <<- print_if (debug self && match trees with [] => true | _ => false end)
                     (Py.lit "Parsing failed for input tokens:" ++ Py.lit " "
                      ++ repr_tokens tokens) ;;
      ret trees
  | Raise e =>
      _ <<- print_if (debug self) (Py.lit "Parsing error: " ++ str_of_exception e) ;;
      ret []
  | Diverge => (Forever, [])
  end.

(** [is_valid(text)], with what it prints. *)
Definition is_valid_io (self : MusicalLanguageParser) (text : pystr) : act bool :=
  trees <<- parse_io self text ;;
  ret (0 <? length trees).

(** [tree.pretty_print()]: a bare string has no such method. *)
Definition pretty_print (tree : Tree) : act unit :=
  match tree with
  | Node _ _ => print (pretty tree)
  | Leaf _ => (Failed AttributeError, [])
  end.

(** [for i, tree in enumerate(trees)], counting from [i]. *)
Fixpoint print_trees (i : nat) (trees : list Tree) : act unit :=
  match trees with
  | [] => ret tt
  | tree :: rest =>
      _ <<- print (heading (i + 1)) ;;
      _ <<- pretty_print tree ;;
      print_trees (S i) rest
  end.

(** [print_parse_tree(text)] *)
Definition print_parse_tree (self : MusicalLanguageParser) (text : pystr)
  : act unit :=
  trees <<- parse_io self text ;;
  match trees with
  | [] => print no_trees_message
  | _ :: _ => print_trees 0 trees
  end.

(** The [while True] loop of [interactive_mode] over the lines that the
    user types; the result comes with the lines that were not read. *)
Fixpoint interactive_loop (self : MusicalLanguageParser) (lines : list pystr)
  : act unit * list pystr :=
  match lines with
  | [] => ((Failed EOFError, [enter_prompt]), [])
  | line :: rest =>
      let user_input := Py.strip line in
      if Py.str_eqb (lower user_input) (Py.lit "q") then
        ((Done tt, [enter_prompt; exiting]), rest)
      else if negb (Py.truthy user_input) then
        after [enter_prompt] (interactive_loop self rest)
      else
        match is_valid_io self user_input with
        | (Done true, out) =>
            let said := enter_prompt :: out
                        ++ [Print (verdict user_input true); show_prompt] in
            match rest with
            | [] => ((Failed EOFError, said), [])
            | answer :: rest' =>
                let show_tree := lower (Py.strip answer) in
                let shown :=
                  if Py.str_eqb show_tree (Py.lit "y")
                  then print_parse_tree self user_input
                  else ret tt in
                match shown with
                | (Done _, out') =>
                    after (said ++ out') (interactive_loop self rest')
                | (Failed f, out') => ((Failed f, said ++ out'), rest')
                | (Forever, out') => ((Forever, said ++ out'), rest')
                end
            end
        | (Done false, out) =>
            after (enter_prompt :: out
                   ++ Print (verdict user_input false) :: hints)
                  (interactive_loop self rest)
        | (Failed f, out) => ((Failed f, enter_prompt :: out), rest)
        | (Forever, out) => ((Forever, enter_prompt :: out), rest)
        end
  end.

(** [interactive_mode()] *)
Definition interactive_mode (self : MusicalLanguageParser) (lines : list pystr)
  : act unit * list pystr :=
  after banner (interactive_loop self lines).

End Console.

End Console.

(** A lower-casing that is right on ASCII letters, for examples. *)
Definition ascii_lower (s : pystr) : pystr :=
  map (fun c => if ((65 <=? c) && (c <=? 90))%N then (c + 32)%N else c) s.

Definition plain_repr (tokens : list pystr) : pystr :=
  Py.join (Py.lit ", ") tokens.

Definition no_message (e : Exception) : pystr := [].

Definition no_drawing (t : Tree) : pystr := [].

(* ================================================================== *)
(** * What the edges of the chart stand for *)
(* ================================================================== *)

Definition edge_rhs (e : Chart.Edge) : list symbol :=
  match e with
  | Chart.TreeEdge _ _ _ r _ => r
  | Chart.LeafEdge _ _ => []
  end.

Definition span_ok (e : Chart.Edge) : Prop :=
  Chart.edge_start e <= Chart.edge_end e.

(** The tokens from position [s] up to position [e]. *)
Definition slice (toks : list pystr) (s e : nat) : list pystr :=
  firstn (e - s) (skipn s toks).

(** The child edges follow one another from position [s] to position
    [e]. *)
Fixpoint chain (s : nat) (l : Chart.cpl) (e : nat) : Prop :=
  match l with
  | [] => s = e
  | c :: l' => Chart.edge_start c = s /\ span_ok c /\ chain (Chart.edge_end c) l' e
  end.

(** A child pointer list of a tree edge: complete edges that follow one
    another over the span of the edge and carry the symbols before the
    dot. *)
Definition cpl_sound (e : Chart.Edge) (l : Chart.cpl) : Prop :=
  match e with
  | Chart.LeafEdge _ _ => True
  | Chart.TreeEdge s e' _ r d =>
      chain s l e'
      /\ Forall (fun c => Chart.is_complete c = true) l
      /\ map Chart.edge_lhs l = firstn d r
  end.

Definition entry_sound (x : Chart.Edge * list Chart.cpl) : Prop :=
  span_ok (fst x) /\ Forall (cpl_sound (fst x)) (snd x).

Definition chart_sound (c : Chart.Chart) : Prop :=
  Forall entry_sound (Chart.edge_to_cpls c).

(** [t] is a tree for the edge [e]: a derivation tree of the grammar for
    the symbol of the edge, over the tokens of its span. *)
Definition tree_for (g : CFG) (toks : list pystr) (e : Chart.Edge) (t : Tree)
  : Prop :=
  root_symbol t = Chart.edge_lhs e
  /\ derivation g t = true
  /\ leaves t = slice toks (Chart.edge_start e) (Chart.edge_end e).

Definition memo_sound (g : CFG) (toks : list pystr) (memo : Chart.Memo) : Prop :=
  forall e ts, Chart.lookup e memo = Some ts -> Forall (tree_for g toks e) ts.

Definition is_node (t : Tree) : bool :=
  match t with
  | Node _ _ => true
  | Leaf _ => false
  end.

(** What [print_parse_tree] prints for the trees: for the k-th tree, from
    1, its heading and its drawing. *)
Definition drawings (pretty : Tree -> pystr) (trees : list Tree)
  : list Console.output :=
  flat_map (fun it => [Console.Print (Console.heading (S (fst it)));
                       Console.Print (pretty (snd it))])
           (combine (seq 0 (length trees)) trees).

(** The line asks to quit. *)
Definition quits (lower : pystr -> pystr) (line : pystr) : Prop :=
  lower (Py.strip line) = Py.lit "q".

(** The invariant of a rule application: the chart is sound, and so are
    the spans of the edges it yields. *)
Definition yield_sound (st : Chart.yielding) : Prop :=
  chart_sound (fst st) /\ Forall span_ok (snd st).

(* ================================================================== *)
(** * The shape of a sentence *)
(* ================================================================== *)

Definition pitches : list pystr :=
  map Py.lit ["A"; "B"; "C"; "D"; "E"; "F"; "G"]%string.

Definition durations : list pystr :=
  map Py.lit ["whole"; "half"; "quarter"; "eighth"; "sixteenth"]%string.

(** At least two tokens, the first a pitch or an opening parenthesis, the
    last a duration. *)
Definition sentence_shape (toks : list pystr) : Prop :=
  2 <= length toks
  /\ (exists first rest,
        toks = first :: rest /\ (In first pitches \/ first = Py.lit "("))
  /\ (exists front last, toks = front ++ [last] /\ In last durations).

(** What the leaves under a nonterminal look like. *)
Inductive kind : Type :=
| Sentence        (* the shape of a sentence *)
| Optional        (* empty, or the shape of a sentence *)
| OnePitch
| OneDuration
| Any.

Definition kind_of (label : pystr) : kind :=
  if existsb (Py.str_eqb label)
       (map Py.lit ["S"; "Composition"; "PhraseList"; "Phrase"; "NoteSequence";
                    "ChordSequence"; "Note"; "Chord"]%string)
  then Sentence
  else if existsb (Py.str_eqb label)
            (map Py.lit ["PhraseList_Prime"; "NoteSequence_Prime";
                         "ChordSequence_Prime"]%string)
  then Optional
  else if Py.str_eqb label (Py.lit "Pitch") then OnePitch
  else if Py.str_eqb label (Py.lit "Duration") then OneDuration
  else Any.

Definition expected (k : kind) (toks : list pystr) : Prop :=
  match k with
  | Sentence => sentence_shape toks
  | Optional => toks = [] \/ sentence_shape toks
  | OnePitch => exists p, In p pitches /\ toks = [p]
  | OneDuration => exists d, In d durations /\ toks = [d]
  | Any => True
  end.

Definition expected_of (t : Tree) : Prop :=
  match t with
  | Node l _ => expected (kind_of l) (leaves t)
  | Leaf _ => True
  end.

(** The three lists of [demo]. *)
Definition demo_valid_examples : list pystr :=
  map Py.lit
    [ "C quarter";
      "C quarter D half";
      "( C E G ) whole";
      "C quarter ( E G B ) whole D half";
      "( C E G ) whole ( D F A ) half" ]%string.

Definition demo_invalid_examples : list pystr :=
  map Py.lit
    [ "quarter C";
      "C D quarter";
      "( C E G";
      "H quarter";
      "C long" ]%string.

Definition demo_examples : list pystr :=
  map Py.lit
    [ "C quarter";
      "A whole B half C quarter";
      "( C E G ) whole";
      "D half ( F A C ) quarter E eighth";
      "C quarter D half ( E G B ) whole F sixteenth" ]%string.

(* ================================================================== *)
(** * Properties of the string functions *)
(* ================================================================== *)

Lemma fromstring_musical_grammar_text :
  Grammar.fromstring musical_grammar_text = Return musical_grammar.
Proof. vm_compute. reflexivity. Qed.

Lemma init_returns (debug_ : bool) : __init__ debug_ = Return (musical_parser debug_).
Proof.
  unfold __init__. rewrite fromstring_musical_grammar_text. reflexivity.
Qed.

Lemma clean_rev word : clean word -> clean (rev word).
Proof. intros H c Hc. apply H. now apply in_rev. Qed.

Lemma clean_cons c word : Py.isspace c = false -> clean word -> clean (c :: word).
Proof. intros Hc H x [<- | Hx]; auto. Qed.

Lemma flush_words word tok :
  clean word -> In tok (Py.flush word) -> tok <> [] /\ clean tok.
Proof.
  destruct word as [| c word]; simpl; [tauto |].
  intros Hclean [<- | []]. split.
  - intro H. apply (f_equal (@length N)) in H.
    rewrite length_app in H. simpl in H. lia.
  - apply (clean_rev Hclean).
Qed.

(** Every word that [split] returns is non-empty and free of whitespace. *)
Lemma split_from_words text : forall word tok,
  clean word -> In tok (Py.split_from word text) -> tok <> [] /\ clean tok.
Proof.
  induction text as [| c text IH]; simpl; intros word tok Hword Hin.
  - eapply flush_words; eauto.
  - destruct (Py.isspace c) eqn:Hc.
    + apply in_app_or in Hin as [Hin | Hin].
      * eapply flush_words; eauto.
      * apply (IH [] tok); [intros x [] | exact Hin].
    + apply (IH (c :: word) tok); [now apply clean_cons | exact Hin].
Qed.

Lemma lstrip_clean tok : tok <> [] -> clean tok -> Py.lstrip tok = tok.
Proof.
  destruct tok as [| c tok]; [congruence |].
  intros _ H. simpl. now rewrite (H c (or_introl eq_refl)).
Qed.

Lemma strip_clean tok : tok <> [] -> clean tok -> Py.strip tok = tok.
Proof.
  intros Hne Hclean. unfold Py.strip, Py.rstrip.
  rewrite (lstrip_clean Hne Hclean).
  rewrite lstrip_clean; [apply rev_involutive | | now apply clean_rev].
  intro H. apply Hne. rewrite <- (rev_involutive tok), H. reflexivity.
Qed.

(** The filter of [tokenize] keeps every word of [split]. *)
Lemma filter_split text :
  filter (fun token => Py.truthy (Py.strip token)) (Py.split text) = Py.split text.
Proof.
  apply forallb_filter_id. apply forallb_forall. intros tok Hin.
  destruct (@split_from_words text [] tok) as [Hne Hclean]; [intros x [] | exact Hin |].
  rewrite (strip_clean Hne Hclean). destruct tok; [congruence | reflexivity].
Qed.

Lemma replace_app old new a b :
  Py.replace old new (a ++ b) = Py.replace old new a ++ Py.replace old new b.
Proof. unfold Py.replace. apply flat_map_app. Qed.

(** Splitting the text with blanks put around the parentheses is scanning
    the text itself. *)
Lemma split_replace_scan text : forall word,
  Py.split_from word
    (Py.replace rparen (Py.lit " ) ") (Py.replace lparen (Py.lit " ( ") text))
  = scan_from word text.
Proof.
  induction text as [| c text IH]; intro word; [reflexivity |].
  change (Py.replace lparen (Py.lit " ( ") (c :: text))
    with ((if (c =? lparen)%N then Py.lit " ( " else [c])
          ++ Py.replace lparen (Py.lit " ( ") text).
  rewrite replace_app. simpl scan_from.
  destruct (N.eqb_spec c lparen) as [-> | Hl].
  - simpl. rewrite IH. reflexivity.
  - destruct (N.eqb_spec c rparen) as [-> | Hr].
    + simpl. rewrite IH. reflexivity.
    + simpl. rewrite app_nil_r.
      destruct (N.eqb_spec c rparen) as [? | _]; [contradiction |].
      simpl. rewrite !IH. reflexivity.
Qed.

Lemma tokenize_scan self text : tokenize self text = tokenize_spec text.
Proof.
  unfold tokenize, tokenize_spec. rewrite filter_split. apply split_replace_scan.
Qed.

Lemma concat_flush word : concat (Py.flush word) = rev word.
Proof. destruct word; simpl; [reflexivity | now rewrite app_nil_r]. Qed.

Lemma concat_scan text : forall word,
  concat (scan_from word text)
  = rev word ++ filter (fun c => negb (Py.isspace c)) text.
Proof.
  induction text as [| c text IH]; intro word; simpl.
  - rewrite concat_flush, app_nil_r. reflexivity.
  - destruct (N.eqb_spec c lparen) as [-> | Hl]; simpl.
    { rewrite concat_app, concat_flush. simpl. now rewrite IH. }
    destruct (N.eqb_spec c rparen) as [-> | Hr]; simpl.
    { rewrite concat_app, concat_flush. simpl. now rewrite IH. }
    destruct (Py.isspace c); simpl.
    + rewrite concat_app, concat_flush, IH. reflexivity.
    + rewrite IH. simpl. rewrite <- app_assoc. reflexivity.
Qed.

Lemma scan_isolates text : forall word tok,
  paren_free word -> In tok (scan_from word text) ->
  In lparen tok \/ In rparen tok -> tok = [lparen] \/ tok = [rparen].
Proof.
  assert (Hflush : forall word tok, paren_free word -> In tok (Py.flush word) ->
            In lparen tok \/ In rparen tok -> False).
  { intros [| c word] tok [H1 H2]; simpl; [tauto |].
    intros [<- | []] [H | H]; [apply H1 | apply H2];
      apply in_rev; exact H. }
  assert (Hnil : paren_free []) by (split; intros []).
  induction text as [| c text IH]; simpl; intros word tok Hword Hin Hp.
  - destruct (Hflush _ _ Hword Hin Hp).
  - destruct (N.eqb_spec c lparen) as [-> | Hl]; simpl in Hin.
    { apply in_app_or in Hin as [Hin | [<- | Hin]]; eauto.
      destruct (Hflush _ _ Hword Hin Hp). }
    destruct (N.eqb_spec c rparen) as [-> | Hr]; simpl in Hin.
    { apply in_app_or in Hin as [Hin | [<- | Hin]]; eauto.
      destruct (Hflush _ _ Hword Hin Hp). }
    destruct (Py.isspace c).
    + apply in_app_or in Hin as [Hin | Hin]; eauto.
      destruct (Hflush _ _ Hword Hin Hp).
    + apply (IH (c :: word)); auto.
      destruct Hword as [H1 H2]. split; intros [E | H]; auto.
Qed.

Lemma scan_whitespace text : whitespace_only text -> scan_from [] text = [].
Proof.
  induction text as [| c text IH]; intro H; [reflexivity |].
  assert (Hc : Py.isspace c = true) by (apply H; now left).
  simpl. destruct (N.eqb_spec c lparen) as [-> | _]; [discriminate Hc |].
  destruct (N.eqb_spec c rparen) as [-> | _]; [discriminate Hc |].
  simpl. rewrite Hc. simpl. apply IH. intros x Hx. apply H. now right.
Qed.

(* ================================================================== *)
(** * The facade: [is_valid], [parse] and [tokenize] *)
(* ================================================================== *)

(** C1: for every parser object and every text, [is_valid] returns true
    exactly when [parse] returns a non-empty list of trees (and false
    exactly when it returns the empty list). *)
Theorem is_valid_iff_parse_nonempty :
  forall (self : MusicalLanguageParser) (text : pystr),
    (is_valid self text = Return true
     <-> exists t ts, parse self text = Return (t :: ts))
    /\ (is_valid self text = Return false <-> parse self text = Return []).
Proof.
  intros self text. unfold is_valid.
  destruct (parse self text) as [[| t ts] | e |]; simpl;
    repeat split; intros H; try discriminate H; eauto;
    destruct H as (t' & ts' & H); discriminate H.
Qed.

(** C2: when the chart parser raises while it builds the chart
    (recognition), or the iterator it hands back raises while the trees
    are read off (extraction), [parse] returns the empty list. *)
Theorem parse_fails_soft :
  forall (self : MusicalLanguageParser) (text : pystr) (e : Exception),
    parser_parse (parser self) (tokenize self text) = Raise e
    \/ (exists it, parser_parse (parser self) (tokenize self text) = Return it
                   /\ fin it = Raises e) ->
    parse self text = Return [].
Proof.
  intros self text e [H | (it & H & Hfin)]; unfold parse; rewrite H; simpl.
  - reflexivity.
  - unfold list_. rewrite Hfin. reflexivity.
Qed.

Lemma parse_fails_soft_witness :
  (parser_parse (parser (musical_parser false))
     (tokenize (musical_parser false) (Py.lit "H quarter")) = Raise uncovered_H
   /\ parse (musical_parser false) (Py.lit "H quarter") = Return [])
  /\ (fin broken_iterator = Raises (RuntimeError "extraction failed")
      /\ parse broken_parser (Py.lit "C quarter") = Return []).
Proof.
  assert (H : parser_parse (parser (musical_parser false))
                (tokenize (musical_parser false) (Py.lit "H quarter"))
              = Raise uncovered_H) by (vm_compute; reflexivity).
  split; split.
  - exact H.
  - apply (@parse_fails_soft (musical_parser false) (Py.lit "H quarter")
             uncovered_H).
    left. exact H.
  - reflexivity.
  - apply (@parse_fails_soft broken_parser (Py.lit "C quarter")
             (RuntimeError "extraction failed")).
    right. exists broken_iterator. split; reflexivity.
Defined.

(** C4: [tokenize] is the scanner of section 4.2: every parenthesis is a
    token of its own, the other tokens are the maximal runs of characters
    that are neither whitespace nor parentheses, and the characters of
    the tokens are those of the text except whitespace, unchanged and in
    order; "(C E G)whole" gives the six tokens of the spec. *)
Theorem tokenize_isolates_parentheses :
  (forall self text, tokenize self text = tokenize_spec text)
  /\ (forall self text tok,
        In tok (tokenize self text) ->
        In lparen tok \/ In rparen tok -> tok = [lparen] \/ tok = [rparen])
  /\ (forall self text,
        concat (tokenize self text) = filter (fun c => negb (Py.isspace c)) text)
  /\ (forall self,
        tokenize self (Py.lit "(C E G)whole")
        = map Py.lit ["("; "C"; "E"; "G"; ")"; "whole"]%string).
Proof.
  split; [| split; [| split]].
  - apply tokenize_scan.
  - intros self text tok. rewrite tokenize_scan. apply scan_isolates.
    split; intros [].
  - intros self text. rewrite tokenize_scan. unfold tokenize_spec.
    rewrite concat_scan. reflexivity.
  - intros self. vm_compute. reflexivity.
Qed.

Lemma tokenize_isolates_parentheses_witness :
  In [lparen] (tokenize (musical_parser false) (Py.lit "(C E G)whole"))
  /\ ([lparen] = [lparen] \/ [lparen] = [rparen]).
Proof.
  assert (H : In [lparen] (tokenize (musical_parser false) (Py.lit "(C E G)whole")))
    by (vm_compute; left; reflexivity).
  split; [exact H |].
  apply (proj1 (proj2 tokenize_isolates_parentheses)
           (musical_parser false) (Py.lit "(C E G)whole") [lparen] H).
  left. left. reflexivity.
Defined.

Lemma parse_no_tokens (debug_ : bool) (text : pystr) :
  tokenize (musical_parser debug_) text = [] ->
  parse (musical_parser debug_) text = Return [].
Proof.
  intro H. unfold parse. rewrite H. vm_compute. reflexivity.
Qed.

(** C10: every token of [tokenize] is a non-empty string without
    whitespace; a text made of whitespace only (the empty text included)
    has no tokens, [parse] returns the empty list for it and [is_valid]
    returns false. *)
Theorem tokens_nonempty_no_whitespace :
  (forall self text tok,
      In tok (tokenize self text) ->
      tok <> [] /\ forall c, In c tok -> Py.isspace c = false)
  /\ (forall self text, whitespace_only text -> tokenize self text = [])
  /\ (forall debug_, exists self,
        __init__ debug_ = Return self
        /\ forall text, whitespace_only text ->
             parse self text = Return [] /\ is_valid self text = Return false).
Proof.
  split; [| split].
  - intros self text tok Hin. rewrite tokenize_scan in Hin.
    unfold tokenize_spec in Hin. rewrite <- split_replace_scan in Hin.
    eapply split_from_words; [| exact Hin]. intros x [].
  - intros self text H. rewrite tokenize_scan. now apply scan_whitespace.
  - intro debug_. exists (musical_parser debug_). split; [apply init_returns |].
    intros text H.
    assert (Hp : parse (musical_parser debug_) text = Return []).
    { apply parse_no_tokens. rewrite tokenize_scan. now apply scan_whitespace. }
    split; [exact Hp | unfold is_valid; rewrite Hp; reflexivity].
Qed.

Lemma blank_is_whitespace_only : whitespace_only (Py.lit "  ").
Proof. intros c [<- | [<- | []]]; reflexivity. Qed.

Lemma tokens_nonempty_no_whitespace_witness :
  whitespace_only (Py.lit "  ")
  /\ tokenize (musical_parser false) (Py.lit "  ") = []
  /\ In (Py.lit "C") (tokenize (musical_parser false) (Py.lit " C quarter"))
  /\ Py.lit "C" <> []
  /\ forall c, In c (Py.lit "C") -> Py.isspace c = false.
Proof.
  assert (Hin : In (Py.lit "C")
                   (tokenize (musical_parser false) (Py.lit " C quarter")))
    by (vm_compute; left; reflexivity).
  split; [exact blank_is_whitespace_only |]. split; [| split; [exact Hin |]].
  - apply (proj1 (proj2 tokens_nonempty_no_whitespace)
             (musical_parser false) (Py.lit "  ") blank_is_whitespace_only).
  - apply (proj1 tokens_nonempty_no_whitespace
             (musical_parser false) (Py.lit " C quarter") (Py.lit "C") Hin).
Defined.

(* ================================================================== *)
(** * The end-to-end scenarios *)
(* ================================================================== *)

(** C3: on "C quarter D half" [parse] returns two parse trees, not one:
    the grammar lets the two notes form one phrase or a phrase each, and
    both are derivation trees for these tokens.  [is_valid] returns
    true. *)
Theorem parse_C_quarter_D_half_two_trees :
  forall debug_, exists self,
    __init__ debug_ = Return self
    /\ parse self C_quarter_D_half = Return [tree_one_phrase; tree_two_phrases]
    /\ tree_one_phrase <> tree_two_phrases
    /\ parse_tree_of self C_quarter_D_half tree_one_phrase
    /\ parse_tree_of self C_quarter_D_half tree_two_phrases
    /\ is_valid self C_quarter_D_half = Return true.
Proof.
  intro debug_. exists (musical_parser debug_).
  split; [apply init_returns |].
  assert (Hp : parse (musical_parser debug_) C_quarter_D_half
               = Return [tree_one_phrase; tree_two_phrases])
    by (vm_compute; reflexivity).
  split; [exact Hp |].
  split; [intro H; vm_compute in H; discriminate H |].
  split; [| split].
  - repeat split; vm_compute; reflexivity.
  - repeat split; vm_compute; reflexivity.
  - unfold is_valid. rewrite Hp. reflexivity.
Qed.

Lemma parse_chord_text (debug_ : bool) :
  parse (musical_parser debug_) chord_text = Return [tree_chord].
Proof. vm_compute. reflexivity. Qed.

Lemma no_chord_with_pitch_children :
  forallb (fun t => negb (labelled "Chord" t
                          && (length (filter (labelled "Pitch") (children_of t)) =? 3)))
          (subtrees tree_chord) = true.
Proof. vm_compute. reflexivity. Qed.

(** The chord scenario as the spec words it fails: the only parse tree of
    "( C E G ) whole" has no Chord node with three Pitch children. *)
Lemma chord_scenario_counterexample :
  ~ (exists self t,
       __init__ false = Return self
       /\ parse self chord_text = Return [t]
       /\ chord_with_3_pitch_children t).
Proof.
  intros (self & t & Hinit & Hp & chord & Hin & Hlab & Hcount).
  rewrite init_returns in Hinit. injection Hinit as <-.
  rewrite parse_chord_text in Hp. injection Hp as <-.
  pose proof (proj1 (forallb_forall _ _) no_chord_with_pitch_children chord Hin) as H.
  cbv beta in H. rewrite Hlab, Hcount in H. discriminate H.
Qed.

(** C5 (amended): on "( C E G ) whole" [parse] returns exactly one tree;
    it contains a Chord node whose children are the token "(", a
    PitchList, the token ")" and a Duration, and below which there are
    exactly three Pitch nodes. *)
Theorem parse_chord_one_tree :
  forall debug_, exists self t,
    __init__ debug_ = Return self
    /\ parse self chord_text = Return [t]
    /\ chord_with_3_pitch_descendants t
    /\ In chord_node (subtrees t)
    /\ map root_symbol (children_of chord_node)
       = [T "("; NT "PitchList"; T ")"; NT "Duration"]
    /\ length (filter (labelled "Pitch") (descendants chord_node)) = 3
    /\ is_valid self chord_text = Return true.
Proof.
  intro debug_. exists (musical_parser debug_), tree_chord.
  split; [apply init_returns |].
  split; [apply parse_chord_text |].
  assert (Hin : In chord_node (subtrees tree_chord)).
  { vm_compute. do 5 right. left. reflexivity. }
  split; [exists chord_node; split; [exact Hin | split; vm_compute; reflexivity] |].
  split; [exact Hin |].
  split; [vm_compute; reflexivity |].
  split; [vm_compute; reflexivity |].
  unfold is_valid. rewrite parse_chord_text. reflexivity.
Qed.

(** C6: on "quarter C", "( C E G" and "H quarter" [parse] returns the
    empty list, it does not raise, and [is_valid] returns false. *)
Theorem invalid_inputs_parse_empty :
  forall debug_, exists self,
    __init__ debug_ = Return self
    /\ Forall (fun text => parse self text = Return []
                           /\ is_valid self text = Return false)
         (map Py.lit ["quarter C"; "( C E G"; "H quarter"]%string).
Proof.
  intro debug_. exists (musical_parser debug_).
  split; [apply init_returns |].
  repeat constructor; vm_compute; reflexivity.
Qed.

(* ================================================================== *)
(** * [generate_examples] *)
(* ================================================================== *)

Lemma collect_stops n : forall sentences examples,
  length examples < wanted n ->
  collect n examples sentences StopIteration
  = Return (examples ++ joined (firstn (wanted n - length examples) sentences)).
Proof.
  unfold wanted.
  induction sentences as [| s rest IH]; intros examples Hlen; simpl.
  - rewrite firstn_nil. simpl. now rewrite app_nil_r.
  - rewrite length_app. simpl length.
    destruct (Z.leb_spec n (Z.of_nat (length examples + 1))) as [Hle | Hgt].
    + replace (Z.to_nat (Z.max n 1) - length examples) with 1 by lia.
      reflexivity.
    + rewrite IH by (rewrite length_app; simpl; lia).
      rewrite length_app. simpl length.
      replace (Z.to_nat (Z.max n 1) - length examples)
        with (S (Z.to_nat (Z.max n 1) - (length examples + 1))) by lia.
      simpl. rewrite <- app_assoc. reflexivity.
Qed.

Lemma collect_raises n e : forall sentences examples,
  length examples + length sentences < wanted n ->
  collect n examples sentences (Raises e) = Raise e.
Proof.
  unfold wanted.
  induction sentences as [| s rest IH]; intros examples Hlen; simpl; [reflexivity |].
  rewrite length_app. simpl length. simpl in Hlen.
  destruct (Z.leb_spec n (Z.of_nat (length examples + 1))) as [Hle | Hgt]; [lia |].
  apply IH. rewrite length_app. simpl. lia.
Qed.

(** How [generate_examples] ends, by how the generation ends: the manual
    examples when the call of the generator raises, or when the
    generator raises before the loop has the examples it wants; what was
    generated, cut to the wanted number, when the generator ends without
    raising. *)
Lemma generate_examples_by_ending :
  forall (generate : CFG -> Z -> Z -> outcome (iterator (list pystr)))
         (self : MusicalLanguageParser) (n depth : Z),
    (forall e, generate (grammar self) depth n = Raise e ->
       generate_examples generate self n depth = Return manual_examples)
    /\ (forall it e,
          generate (grammar self) depth n = Return it ->
          fin it = Raises e -> length (items it) < wanted n ->
          generate_examples generate self n depth = Return manual_examples)
    /\ (forall it,
          generate (grammar self) depth n = Return it ->
          fin it = StopIteration ->
          generate_examples generate self n depth
          = Return (joined (firstn (wanted n) (items it)))).
Proof.
  intros generate self n depth. unfold generate_examples.
  split; [| split].
  - intros e H. rewrite H. reflexivity.
  - intros it e H Hfin Hlen. rewrite H. simpl. rewrite Hfin.
    rewrite collect_raises by (simpl; lia). reflexivity.
  - intros it H Hfin. rewrite H. simpl. rewrite Hfin.
    rewrite collect_stops by (unfold wanted; simpl; lia).
    simpl. rewrite Nat.sub_0_r. reflexivity.
Qed.

(** With depth 5 the expansion cannot reach a terminal of the grammar,
    whatever room the interpreter leaves it; with a depth that the
    interpreter cannot follow, the expansion fails before its first
    sentence. *)
Lemma generate_depth_5 frames n :
  16 <= frames -> (0 <= n <= Generate.sys_maxsize)%Z ->
  Generate.generate frames musical_grammar 5 n = Return (iter []).
Proof.
  intros Hf Hn. unfold Generate.generate.
  replace ((n <? 0) || (Generate.sys_maxsize <? n))%Z with false
    by (symmetry; apply orb_false_iff; split; apply Z.ltb_ge; lia).
  replace frames with (16 + (frames - 16)) by lia.
  assert (H : Generate._generate_all (16 + (frames - 16)) musical_grammar
                [Nonterminal (start musical_grammar)] 5 = iter [])
    by (vm_compute; reflexivity).
  rewrite H. unfold Generate.islice. simpl.
  destruct (Z.to_nat n); reflexivity.
Qed.

Lemma generate_too_deep :
  Generate.generate Generate.recursion_limit musical_grammar 1000 10
  = Return (Iterator [] (Raises Generate.infinite_recursion)).
Proof. vm_compute. reflexivity. Qed.

(** The claim of the fallback as the spec words it fails at the default
    arguments: with depth 5 the generator ends without a single sentence,
    and [generate_examples] returns the empty list, not the manual
    examples. *)
Lemma generate_examples_fallback_counterexample :
  Generate.generate Generate.recursion_limit (grammar (musical_parser false)) 5 10
  = Return (iter [])
  /\ generate_examples (Generate.generate Generate.recursion_limit)
       (musical_parser false) 10 5 = Return []
  /\ generate_examples (Generate.generate Generate.recursion_limit)
       (musical_parser false) 10 5
     <> Return manual_examples.
Proof.
  split; [vm_compute; reflexivity |].
  split; [vm_compute; reflexivity |].
  vm_compute. discriminate.
Qed.

(** C8 (amended): when the generation produces no sentence,
    [generate_examples] falls back to the manual examples if the
    generation raised (at the call of the generator, or when the loop
    asked for the first sentence), and returns the empty list if the
    generation ended normally.  The manual examples are not the empty
    list, so the two cases show in the result. *)
Theorem generate_examples_fallback :
  forall (generate : CFG -> Z -> Z -> outcome (iterator (list pystr)))
         (self : MusicalLanguageParser) (n depth : Z),
    (forall e, generate (grammar self) depth n = Raise e ->
       generate_examples generate self n depth = Return manual_examples)
    /\ (forall it,
          generate (grammar self) depth n = Return it ->
          items it = [] ->
          generate_examples generate self n depth
          = match fin it with
            | StopIteration => Return []
            | Raises _ => Return manual_examples
            | Hangs => Diverge
            end)
    /\ manual_examples <> [].
Proof.
  intros generate self n depth. unfold generate_examples.
  split; [| split].
  - intros e H. rewrite H. reflexivity.
  - intros it H Hitems. rewrite H. simpl. rewrite Hitems. simpl.
    destruct (fin it); reflexivity.
  - discriminate.
Qed.

Lemma generate_examples_fallback_witness :
  generate_examples (Generate.generate Generate.recursion_limit)
    (musical_parser false) (-1) 8
  = Return manual_examples
  /\ generate_examples (Generate.generate Generate.recursion_limit)
       (musical_parser false) 10 1000
     = Return manual_examples
  /\ generate_examples (Generate.generate Generate.recursion_limit)
       (musical_parser false) 10 5
     = Return [].
Proof.
  pose proof (generate_examples_fallback
                (Generate.generate Generate.recursion_limit)
                (musical_parser false)) as H.
  split; [| split].
  - apply (proj1 (H (-1)%Z 8%Z) Generate.islice_refusal). vm_compute. reflexivity.
  - apply (proj1 (proj2 (H 10%Z 1000%Z))
             (Iterator [] (Raises Generate.infinite_recursion)));
      vm_compute; reflexivity.
  - apply (proj1 (proj2 (H 10%Z 5%Z)) (iter [])); vm_compute; reflexivity.
Defined.

(* ================================================================== *)
(** * Termination of the chart parser *)
(* ================================================================== *)

Unset Implicit Arguments.

Lemma rounds_add g a : forall b st,
  rounds g (a + b) st
  = match rounds g a st with
    | inl st' => rounds g b st'
    | inr c => inr c
    end.
Proof.
  induction a as [| a IH]; intros b st; simpl; [reflexivity |].
  destruct (Chart.agenda_step g st); [apply IH | reflexivity].
Qed.

Lemma agenda_loop_rounds g fuel : forall st,
  Chart.agenda_loop g fuel st = rounds g (Pos.to_nat fuel) st.
Proof.
  induction fuel as [p IH | p IH |]; intro st; cbn [Chart.agenda_loop].
  - replace (Pos.to_nat p~1) with (S (Pos.to_nat p + Pos.to_nat p)) by lia.
    cbn [rounds].
    destruct (Chart.agenda_step g st) as [st1 | c]; [| reflexivity].
    rewrite rounds_add, <- IH.
    destruct (Chart.agenda_loop g p st1); [apply IH | reflexivity].
  - replace (Pos.to_nat p~0) with (Pos.to_nat p + Pos.to_nat p) by lia.
    rewrite rounds_add, <- IH.
    destruct (Chart.agenda_loop g p st); [apply IH | reflexivity].
  - simpl. destruct (Chart.agenda_step g st); reflexivity.
Qed.

Lemma in_lists_upto {A : Type} (U : list A) k : forall l,
  length l <= k -> Forall (fun x => In x U) l -> In l (lists_upto k U).
Proof.
  induction k as [| k IH]; intros [| x l] Hlen HU; simpl in *; auto; try lia.
  right. apply in_flat_map. exists x.
  inversion HU; subst. split; [assumption |].
  apply in_map, IH; [lia | assumption].
Qed.

Lemma length_lists_upto {A : Type} (U : list A) k :
  length (lists_upto k U) <= S (length U) ^ k.
Proof.
  induction k as [| k IH]; simpl lists_upto; [simpl; lia |].
  simpl length.
  rewrite flat_map_constant_length with (c := length (lists_upto k U))
    by (intros; apply length_map).
  rewrite Nat.pow_succ_r'.
  assert (1 <= S (length U) ^ k) by (apply Nat.neq_0_lt_0, Nat.pow_nonzero; lia).
  nia.
Qed.

Lemma list_sum_le_const {A : Type} (f : A -> nat) k l :
  Forall (fun x => f x <= k) l -> list_sum (map f l) <= length l * k.
Proof. induction 1; simpl; lia. Qed.

Lemma fold_left_inv {A S : Type} (P : S -> Prop) (f : S -> A -> S) l : forall s,
  P s -> (forall s a, In a l -> P s -> P (f s a)) -> P (fold_left f l s).
Proof.
  induction l as [| a l IH]; intros s Hs Hf; simpl; [assumption |].
  apply IH; [apply Hf; [now left | assumption] |].
  intros s' a' Hin. apply Hf. now right.
Qed.

Lemma lookup_in {V : Type} e (m : list (Chart.Edge * V)) v :
  Chart.lookup e m = Some v -> In (e, v) m.
Proof.
  induction m as [| [e' v'] m IH]; simpl; [discriminate |].
  destruct (Chart.Edge_eq_dec e e') as [<- | _].
  - intros [= <-]. now left.
  - intro H. right. now apply IH.
Qed.

Lemma lookup_none {V : Type} e (m : list (Chart.Edge * V)) :
  Chart.lookup e m = None <-> ~ In e (map fst m).
Proof.
  induction m as [| [e' v'] m IH]; simpl; [tauto |].
  destruct (Chart.Edge_eq_dec e e') as [<- | Hne].
  - split; [discriminate | intro H; exfalso; apply H; now left].
  - rewrite IH. split; [intros H [E | Hin]; auto | tauto].
Qed.

Lemma set_cpls_keys e v m :
  map fst (Chart.set_cpls e v m)
  = if in_dec Chart.Edge_eq_dec e (map fst m) then map fst m
    else map fst m ++ [e].
Proof.
  induction m as [| [e' v'] m IH]; simpl; [reflexivity |].
  destruct (Chart.Edge_eq_dec e e') as [<- | Hne]; simpl.
  - destruct (Chart.Edge_eq_dec e e); [reflexivity | congruence].
  - rewrite IH. destruct (Chart.Edge_eq_dec e' e); [congruence |].
    destruct (in_dec Chart.Edge_eq_dec e (map fst m)); reflexivity.
Qed.

Lemma set_cpls_Forall (P : Chart.Edge * list Chart.cpl -> Prop) e v m :
  Forall P m -> P (e, v) -> Forall P (Chart.set_cpls e v m).
Proof.
  induction 1 as [| [e' v'] m Hx Hm IH]; intro Hv; simpl.
  - constructor; [assumption | constructor].
  - destruct (Chart.Edge_eq_dec e e') as [<- | Hne]; constructor; auto.
Qed.

Lemma set_cpls_npairs e v m :
  list_sum (map (fun x => length (snd x)) (Chart.set_cpls e v m))
  + length (match Chart.lookup e m with Some old => old | None => [] end)
  = list_sum (map (fun x => length (snd x)) m) + length v.
Proof.
  induction m as [| [e' v'] m IH]; simpl; [lia |].
  destruct (Chart.Edge_eq_dec e e') as [<- | Hne]; simpl; lia.
Qed.

Lemma add_cpls_spec new : forall old,
  NoDup old ->
  NoDup (fst (Chart.add_cpls old new))
  /\ (forall l, In l (fst (Chart.add_cpls old new)) -> In l old \/ In l new)
  /\ length old + (if snd (Chart.add_cpls old new) then 1 else 0)
     <= length (fst (Chart.add_cpls old new)).
Proof.
  induction new as [| x new IH]; intros old Hold; simpl.
  - repeat split; auto; lia.
  - destruct (in_dec Chart.cpl_eq_dec x old) as [Hin | Hnin].
    + destruct (IH old Hold) as (H1 & H2 & H3).
      repeat split; auto. intros l Hl. destruct (H2 l Hl); auto.
    + assert (Hnd : NoDup (old ++ [x])).
      { apply NoDup_app; auto.
        - constructor; [intros [] | constructor].
        - intros a Ha [<- | []]. contradiction. }
      destruct (IH (old ++ [x]) Hnd) as (H1 & H2 & H3). simpl.
      repeat split; auto.
      * intros l Hl. destruct (H2 l Hl) as [Hl' | Hl']; auto.
        apply in_app_or in Hl' as [? | [<- | []]]; auto.
      * rewrite length_app in H3. simpl in H3. lia.
Qed.

Section AgendaTerminates.

Variable g : CFG.
Variable toks : list pystr.

Local Abbreviation edge_ok := (Invariant.edge_ok g toks).
Local Abbreviation cpl_ok := (Invariant.cpl_ok g toks).
Local Abbreviation entry_ok := (Invariant.entry_ok g toks).
Local Abbreviation chart_ok := (Invariant.chart_ok g toks).
Local Abbreviation loop_ok := (Invariant.loop_ok g toks).
Local Abbreviation state_ok := (Invariant.state_ok g toks).
Local Abbreviation pair_bound := (Invariant.pair_bound g toks).
Local Abbreviation measure := (Invariant.measure g toks).

Lemma edge_ok_in e : edge_ok e -> In e (all_edges g toks).
Proof.
  unfold all_edges. destruct e as [s e' l r d | leaf i]; unfold edge_ok.
  - intros (Hs & He & Hp & Hd). apply in_or_app. right.
    apply in_flat_map. exists s. split; [apply in_seq; lia |].
    apply in_flat_map. exists e'. split; [apply in_seq; lia |].
    apply in_flat_map. exists (mkProduction l r). split; [assumption |].
    unfold tree_edges_of. cbn [lhs rhs].
    apply in_map, in_seq. lia.
  - intros (Hi & ->). apply in_or_app. left.
    apply (in_map (fun i => Chart.LeafEdge (nth i toks []) i)), in_seq. lia.
Qed.

Lemma length_all_edges :
  length (all_edges g toks) = N.to_nat (Chart.edge_bound g (length toks)).
Proof.
  unfold all_edges, Chart.edge_bound.
  rewrite length_app, length_map, length_seq.
  rewrite flat_map_constant_length
    with (c := S (length toks)
               * list_sum (map (fun p => S (length (rhs p))) (productions g))).
  - rewrite length_seq, N2Nat.inj_add, !N2Nat.inj_mul, !Nat2N.id. lia.
  - intros s _. rewrite flat_map_constant_length
      with (c := list_sum (map (fun p => S (length (rhs p))) (productions g))).
    + now rewrite length_seq.
    + intros e _. rewrite length_flat_map. f_equal. apply map_ext.
      intro p. unfold tree_edges_of. now rewrite length_map, length_seq.
Qed.

Lemma rhs_le_max p : In p (productions g) -> length (rhs p) <= Chart.max_rhs g.
Proof.
  intro Hin. unfold Chart.max_rhs.
  assert (H : Forall (fun k => k <= list_max (map (fun p => length (rhs p))
                                                 (productions g)))
                (map (fun p => length (rhs p)) (productions g)))
    by (apply list_max_le; lia).
  rewrite Forall_forall in H. apply H.
  apply (in_map (fun p => length (rhs p))). exact Hin.
Qed.

Lemma edge_dot_le_max e : edge_ok e -> edge_dot e <= Chart.max_rhs g.
Proof.
  destruct e as [s e' l r d | leaf i]; simpl; [| lia].
  intros (_ & _ & Hp & Hd). apply rhs_le_max in Hp. simpl in Hp. lia.
Qed.

Lemma cpl_ok_in e l : edge_ok e -> cpl_ok e l -> In l (all_cpls g toks).
Proof.
  intros He [Hlen Hl]. apply in_lists_upto.
  - pose proof (edge_dot_le_max e He). lia.
  - eapply Forall_impl; [| exact Hl]. apply edge_ok_in.
Qed.

(** A chart that meets the invariant holds at most [pair_bound] child
    pointer lists. *)
Lemma npairs_bound c : chart_ok c -> npairs c <= pair_bound.
Proof.
  intros (_ & Hnd & Hall). unfold npairs, pair_bound.
  transitivity (length (Chart.edge_to_cpls c) * length (all_cpls g toks)).
  - apply list_sum_le_const.
    eapply Forall_impl; [| exact Hall].
    intros [e cpls] (He & Hnd' & Hcpls). simpl in *.
    apply NoDup_incl_length; [assumption |].
    intros l Hl. rewrite Forall_forall in Hcpls.
    apply (cpl_ok_in e l He). now apply Hcpls.
  - apply Nat.mul_le_mono_r.
    replace (length (Chart.edge_to_cpls c)) with (length (Chart.edges c))
      by apply length_map.
    apply NoDup_incl_length; [assumption |].
    intros e He. unfold Chart.edges in He. apply in_map_iff in He as (x & <- & Hx).
    rewrite Forall_forall in Hall. apply edge_ok_in. now apply Hall.
Qed.

Lemma child_pointer_lists_ok c e :
  chart_ok c ->
  NoDup (Chart.child_pointer_lists c e)
  /\ Forall (cpl_ok e) (Chart.child_pointer_lists c e).
Proof.
  intros (_ & _ & Hall). unfold Chart.child_pointer_lists.
  destruct (Chart.lookup e (Chart.edge_to_cpls c)) as [cpls |] eqn:E.
  - apply lookup_in in E. rewrite Forall_forall in Hall.
    destruct (Hall _ E) as (_ & H1 & H2). auto.
  - split; constructor.
Qed.

(** [insert] keeps the invariant, and reports a modification only when
    the chart has gained a child pointer list. *)
Lemma insert_ok c e new :
  chart_ok c -> edge_ok e -> Forall (cpl_ok e) new ->
  chart_ok (fst (Chart.insert c e new))
  /\ npairs c + (if snd (Chart.insert c e new) then 1 else 0)
     <= npairs (fst (Chart.insert c e new)).
Proof.
  intros Hc He Hnew. unfold Chart.insert.
  destruct (child_pointer_lists_ok c e Hc) as [Hnd Hold].
  destruct (add_cpls_spec new _ Hnd) as (H1 & H2 & H3).
  pose proof (set_cpls_npairs e
                (fst (Chart.add_cpls (Chart.child_pointer_lists c e) new))
                (Chart.edge_to_cpls c)) as Hn.
  fold (Chart.child_pointer_lists c e) in Hn.
  destruct (Chart.add_cpls (Chart.child_pointer_lists c e) new)
    as [cpls modified]. simpl in *.
  destruct Hc as (Htok & Hkeys & Hall).
  split; [split; [exact Htok | split] |].
  - unfold Chart.edges. simpl. rewrite set_cpls_keys.
    destruct (in_dec Chart.Edge_eq_dec e (map fst (Chart.edge_to_cpls c)));
      [exact Hkeys |].
    apply NoDup_app; [exact Hkeys | constructor; [intros [] | constructor] |].
    intros a Ha [<- | []]. contradiction.
  - simpl. apply set_cpls_Forall; [exact Hall |].
    split; [exact He | split; [exact H1 |]]. simpl.
    apply Forall_forall. intros l Hl.
    destruct (H2 l Hl) as [Hl' | Hl'];
      [rewrite Forall_forall in Hold | rewrite Forall_forall in Hnew]; auto.
  - unfold npairs in *. simpl. lia.
Qed.

Lemma yield_if_ok c0 st e new :
  loop_ok c0 st -> edge_ok e -> Forall (cpl_ok e) new ->
  loop_ok c0 (Chart.yield_if st (Chart.insert (fst st) e new) e).
Proof.
  intros (Hc & Hy & Hn) He Hnew.
  destruct (insert_ok _ _ _ Hc He Hnew) as [Hc' Hn'].
  unfold loop_ok, Chart.yield_if. simpl.
  destruct (snd (Chart.insert (fst st) e new)).
  - split; [exact Hc' | split; [| rewrite length_app; simpl; lia]].
    apply Forall_app. split; [exact Hy | constructor; [exact He | constructor]].
  - split; [exact Hc' | split; [exact Hy | lia]].
Qed.

Lemma loop_ok_start c : chart_ok c -> loop_ok c (c, []).
Proof. intro Hc. split; [exact Hc | split; [constructor | simpl; lia]]. Qed.

Lemma nil_cpl_ok e : Forall (cpl_ok e) [[]].
Proof. constructor; [split; [simpl; lia | constructor] | constructor]. Qed.

Lemma LeafInitRule_ok c : chart_ok c -> loop_ok c (Chart.LeafInitRule c).
Proof.
  intro Hc. unfold Chart.LeafInitRule.
  apply fold_left_inv; [now apply loop_ok_start |].
  intros st i Hi Hst. apply yield_if_ok; [exact Hst | | apply nil_cpl_ok].
  apply in_seq in Hi. unfold Chart.num_leaves in Hi.
  destruct Hc as (Htok & _). rewrite Htok in *. simpl. split; [lia | reflexivity].
Qed.

Lemma EmptyPredictRule_ok c : chart_ok c -> loop_ok c (Chart.EmptyPredictRule g c).
Proof.
  intro Hc. unfold Chart.EmptyPredictRule.
  apply fold_left_inv; [now apply loop_ok_start |].
  intros st p Hp Hst. apply fold_left_inv; [exact Hst |].
  intros st' i Hi Hst'. apply yield_if_ok; [exact Hst' | | apply nil_cpl_ok].
  apply in_seq in Hi. unfold Chart.num_leaves in Hi.
  destruct Hc as (Htok & _). rewrite Htok in Hi.
  unfold Grammar.productions_empty in Hp.
  apply nodup_In, filter_In in Hp as [Hp _].
  destruct p as [l r]. simpl. repeat split; try lia. exact Hp.
Qed.

Lemma edge_end_ok e : edge_ok e -> Chart.edge_end e <= length toks.
Proof. destruct e; simpl; intros H; [apply H | destruct H; lia]. Qed.

Lemma edge_start_ok e : edge_ok e -> Chart.edge_start e <= length toks.
Proof. destruct e; simpl; intros H; [apply H | destruct H; lia]. Qed.

Lemma BottomUpPredictCombineRule_ok c edge :
  chart_ok c -> edge_ok edge ->
  loop_ok c (Chart.BottomUpPredictCombineRule g c edge).
Proof.
  intros Hc He. unfold Chart.BottomUpPredictCombineRule.
  destruct (Chart.is_incomplete edge); [now apply loop_ok_start |].
  apply fold_left_inv; [now apply loop_ok_start |].
  intros st p Hp Hst.
  unfold Grammar.productions_rhs in Hp. apply filter_In in Hp as [Hp Hrhs].
  destruct p as [l r]. simpl in *. destruct r as [| s r]; [discriminate |].
  apply yield_if_ok; [exact Hst | |].
  - simpl. repeat split; try lia; [now apply edge_start_ok
                                  | now apply edge_end_ok | exact Hp].
  - constructor; [| constructor].
    split; [simpl; lia | constructor; [exact He | constructor]].
Qed.

Lemma move_dot_forward_ok left_ right_ :
  edge_ok left_ -> edge_ok right_ -> Chart.is_incomplete left_ = true ->
  edge_ok (Chart.move_dot_forward left_ (Chart.edge_end right_))
  /\ edge_dot (Chart.move_dot_forward left_ (Chart.edge_end right_))
     = S (edge_dot left_).
Proof.
  intros Hl Hr Hinc. destruct left_ as [s e' l r d | leaf i]; [| discriminate].
  unfold Chart.is_incomplete in Hinc. simpl in *.
  destruct (Nat.eqb_spec d (length r)); [discriminate |].
  pose proof (edge_end_ok _ Hr). repeat split; try tauto; lia.
Qed.

Lemma backpointer_ok c0 st left_ right_ :
  loop_ok c0 st -> edge_ok left_ -> edge_ok right_ ->
  Chart.is_incomplete left_ = true ->
  loop_ok c0
    (Chart.yield_if st
       (Chart.insert_with_backpointer (fst st)
          (Chart.move_dot_forward left_ (Chart.edge_end right_)) left_ right_)
       (Chart.move_dot_forward left_ (Chart.edge_end right_))).
Proof.
  intros Hst Hl Hr Hinc.
  destruct (move_dot_forward_ok _ _ Hl Hr Hinc) as [Hnew Hdot].
  unfold Chart.insert_with_backpointer.
  apply yield_if_ok; [exact Hst | exact Hnew |].
  destruct Hst as (Hc & _).
  destruct (child_pointer_lists_ok _ left_ Hc) as [_ Hold].
  apply Forall_forall. intros l Hl'. apply in_map_iff in Hl' as (l0 & <- & Hl0).
  rewrite Forall_forall in Hold. destruct (Hold l0 Hl0) as [Hlen Hok].
  split; [rewrite length_app, Hdot; simpl; lia |].
  apply Forall_app. split; [exact Hok | constructor; [exact Hr | constructor]].
Qed.

Lemma select_ok c restr e :
  chart_ok c -> In e (Chart.select c restr) -> edge_ok e /\ restr e = true.
Proof.
  intros (_ & _ & Hall) Hin. unfold Chart.select in Hin.
  apply filter_In in Hin as [Hin Hr]. split; [| exact Hr].
  unfold Chart.edges in Hin. apply in_map_iff in Hin as (x & <- & Hx).
  rewrite Forall_forall in Hall. now apply Hall.
Qed.

Lemma SingleEdgeFundamentalRule_ok c edge :
  chart_ok c -> edge_ok edge ->
  loop_ok c (Chart.SingleEdgeFundamentalRule c edge).
Proof.
  intros Hc He. unfold Chart.SingleEdgeFundamentalRule.
  destruct (Chart.is_incomplete edge) eqn:Hinc.
  - apply fold_left_inv; [now apply loop_ok_start |].
    intros st r Hr Hst. destruct (select_ok _ _ _ Hc Hr) as [Hrok _].
    now apply backpointer_ok.
  - apply fold_left_inv; [now apply loop_ok_start |].
    intros st l Hl Hst. destruct (select_ok _ _ _ Hc Hl) as [Hlok Hrestr].
    apply backpointer_ok; auto.
    apply andb_prop in Hrestr as [Hrestr _].
    apply andb_prop in Hrestr as [_ Hrestr]. exact Hrestr.
Qed.

(** A round of the loop keeps the invariant and decreases the measure. *)
Lemma agenda_step_decreases st :
  state_ok st ->
  match Chart.agenda_step g st with
  | inl st' => state_ok st' /\ measure st' < measure st
  | inr c => chart_ok c
  end.
Proof.
  destruct st as [c agenda]. intros [Hc Ha]. simpl in Hc, Ha.
  unfold Chart.agenda_step.
  destruct (rev agenda) as [| edge below] eqn:Hrev; [exact Hc |].
  assert (Hagenda : agenda = rev below ++ [edge]).
  { rewrite <- (rev_involutive agenda), Hrev. reflexivity. }
  subst agenda. apply Forall_app in Ha as [Hbelow Hedge].
  inversion Hedge as [| ? ? He _]; subst.
  pose proof (BottomUpPredictCombineRule_ok _ _ Hc He) as H1.
  destruct (Chart.BottomUpPredictCombineRule g c edge) as [c1 new1].
  destruct H1 as (Hc1 & Hy1 & Hn1). simpl in Hc1, Hy1, Hn1.
  pose proof (SingleEdgeFundamentalRule_ok _ _ Hc1 He) as H2.
  destruct (Chart.SingleEdgeFundamentalRule c1 edge) as [c2 new2].
  destruct H2 as (Hc2 & Hy2 & Hn2). simpl in Hc2, Hy2, Hn2.
  split.
  - split; simpl; [exact Hc2 |].
    apply Forall_app. split; [exact Hbelow |].
    apply Forall_app. split; assumption.
  - pose proof (npairs_bound _ Hc2). unfold measure. simpl.
    rewrite !length_app. simpl. lia.
Qed.

(** More rounds than the measure empty the agenda. *)
Lemma rounds_terminate : forall k st,
  state_ok st -> measure st < k -> exists c, rounds g k st = inr c.
Proof.
  induction k as [| k IH]; intros st Hst Hk; [lia |].
  simpl. pose proof (agenda_step_decreases _ Hst) as H.
  destruct (Chart.agenda_step g st) as [st' | c]; [| eauto].
  destruct H as [Hst' Hlt]. apply IH; [exact Hst' | lia].
Qed.

Lemma agenda_fuel_enough st :
  state_ok st -> length (snd st) <= length (all_edges g toks) ->
  measure st < Pos.to_nat (Chart.agenda_fuel g (length toks)).
Proof.
  intros Hst Hlen. unfold Chart.agenda_fuel.
  match goal with
  | |- _ < Pos.to_nat ?p => change (Pos.to_nat p) with (N.to_nat (N.pos p))
  end.
  rewrite N.succ_pos_spec, N2Nat.inj_succ.
  rewrite N2Nat.inj_add, N2Nat.inj_mul, N2Nat.inj_pow.
  rewrite N2Nat.inj_add, <- length_all_edges, Nat2N.id.
  change (N.to_nat 1) with 1.
  unfold measure, pair_bound.
  assert (Hc : length (all_cpls g toks)
               <= S (length (all_edges g toks)) ^ Chart.max_rhs g)
    by apply length_lists_upto.
  replace (length (all_edges g toks) + 1) with (S (length (all_edges g toks)))
    by lia.
  apply (Nat.mul_le_mono_l _ _ (length (all_edges g toks))) in Hc.
  revert Hc.
  generalize (length (all_edges g toks) * length (all_cpls g toks)).
  generalize (length (all_edges g toks)
              * S (length (all_edges g toks)) ^ Chart.max_rhs g).
  intros. lia.
Qed.

Lemma edges_ok c : chart_ok c -> Forall edge_ok (Chart.edges c).
Proof.
  intros (_ & _ & Hall). unfold Chart.edges. apply Forall_forall.
  intros e He. apply in_map_iff in He as (x & <- & Hx).
  rewrite Forall_forall in Hall. now apply Hall.
Qed.

Lemma edges_bound c :
  chart_ok c -> length (Chart.edges c) <= length (all_edges g toks).
Proof.
  intro Hc. apply NoDup_incl_length; [apply Hc |].
  intros e He. apply edge_ok_in.
  pose proof (edges_ok c Hc) as H. rewrite Forall_forall in H. now apply H.
Qed.

Lemma empty_chart_ok : chart_ok (Chart.empty_chart toks).
Proof. split; [reflexivity | split; constructor]. Qed.

(** The agenda loop of [chart_parse] comes to an end within its fuel. *)
Lemma chart_parse_returns :
  (exists e, Chart.chart_parse g toks = Raise e)
  \/ (exists c, Chart.chart_parse g toks = Return c).
Proof.
  unfold Chart.chart_parse, Grammar.check_coverage.
  destruct (filter (fun tok => negb (Grammar.covers g tok)) toks);
    [| left; eexists; reflexivity].
  right. cbn [bind].
  pose proof (LeafInitRule_ok _ empty_chart_ok) as (H1 & _).
  pose proof (EmptyPredictRule_ok _ H1) as (H2 & _).
  set (c2 := fst (Chart.EmptyPredictRule g
                    (fst (Chart.LeafInitRule (Chart.empty_chart toks))))) in *.
  assert (Hst : state_ok (c2, rev (Chart.edges c2))).
  { split; [exact H2 |]. simpl. apply Forall_rev. now apply edges_ok. }
  assert (Hlen : length (snd (c2, rev (Chart.edges c2)))
                 <= length (all_edges g toks)).
  { simpl. rewrite length_rev. now apply edges_bound. }
  destruct (rounds_terminate _ _ Hst (agenda_fuel_enough _ Hst Hlen)) as [c Hc].
  rewrite agenda_loop_rounds, Hc. eauto.
Qed.

End AgendaTerminates.

(** ** Reading the trees off the chart *)

Lemma memo_le_refl memo : memo_le memo memo.
Proof. intros e H. exact H. Qed.

Lemma memo_le_trans a b c : memo_le a b -> memo_le b c -> memo_le a c.
Proof. intros H1 H2 e H. apply H1, H2, H. Qed.

Lemma memo_le_cons e v memo : memo_le memo ((e, v) :: memo).
Proof.
  intros e' H. simpl in H. destruct (Chart.Edge_eq_dec e' e); [discriminate | exact H].
Qed.

Lemma filter_length_mono {A : Type} (f h : A -> bool) l :
  (forall x, f x = true -> h x = true) ->
  length (filter f l) <= length (filter h l).
Proof.
  intro Himp. induction l as [| x l IH]; simpl; [lia |].
  destruct (f x) eqn:Ef.
  - rewrite (Himp x Ef). simpl. lia.
  - destruct (h x); simpl; lia.
Qed.

Lemma filter_length_lt {A : Type} (f h : A -> bool) l a :
  (forall x, f x = true -> h x = true) ->
  In a l -> h a = true -> f a = false ->
  length (filter f l) < length (filter h l).
Proof.
  intros Himp Hin Hh Hf. induction l as [| x l IH]; [destruct Hin |].
  simpl. destruct Hin as [-> | Hin].
  - rewrite Hf, Hh. simpl.
    pose proof (filter_length_mono f h l Himp). lia.
  - specialize (IH Hin). destruct (f x) eqn:Ef.
    + rewrite (Himp x Ef). simpl. lia.
    + destruct (h x); simpl; lia.
Qed.

Lemma unseen_le c memo memo' : memo_le memo memo' -> unseen c memo' <= unseen c memo.
Proof.
  intro H. apply filter_length_mono. intros e He.
  destruct (Chart.lookup e memo') eqn:E; [discriminate |].
  now rewrite (H e E).
Qed.

Lemma unseen_lt c memo edge v :
  In edge (Chart.edges c) -> Chart.lookup edge memo = None ->
  unseen c ((edge, v) :: memo) < unseen c memo.
Proof.
  intros Hin Hnone. apply filter_length_lt with (a := edge).
  - intros e He. destruct (Chart.lookup e ((edge, v) :: memo)) eqn:E;
      [discriminate |].
    now rewrite (memo_le_cons edge v memo e E).
  - exact Hin.
  - now rewrite Hnone.
  - simpl. destruct (Chart.Edge_eq_dec edge edge); [reflexivity | congruence].
Qed.

Lemma foldM_inv {A S : Type} (Q : S -> Prop) (f : S -> A -> outcome S) l :
  forall s,
    Q s ->
    (forall s a, In a l -> Q s ->
       f s a <> Diverge /\ forall s', f s a = Return s' -> Q s') ->
    foldM f l s <> Diverge /\ forall s', foldM f l s = Return s' -> Q s'.
Proof.
  induction l as [| a l IH]; intros s Hs Hf; simpl.
  - split; [discriminate | intros s' [= <-]; exact Hs].
  - destruct (Hf s a (or_introl eq_refl) Hs) as [Hnd Hret].
    destruct (f s a) as [s1 | e |]; simpl.
    + apply IH; [now apply Hret |].
      intros s2 a2 Hin. apply Hf. now right.
    + split; discriminate.
    + congruence.
Qed.

(** With more fuel than there are unseen edges, [_trees] comes back, and
    the memo only grows. *)
Lemma _trees_terminates c : forall fuel edge memo,
  unseen c memo < fuel ->
  Chart._trees fuel c edge memo <> Diverge
  /\ forall r, Chart._trees fuel c edge memo = Return r -> memo_le memo (snd r).
Proof.
  induction fuel as [| fuel IH]; intros edge memo Hfuel; [lia |].
  cbn [Chart._trees].
  destruct (Chart.lookup edge memo) as [ts |] eqn:Hmemo.
  { split; [discriminate | intros r [= <-]; apply memo_le_refl]. }
  destruct (Chart.is_incomplete edge).
  { split; [discriminate | intros r [= <-]; apply memo_le_refl]. }
  destruct edge as [s e' l rh d | leaf i].
  - set (edge := Chart.TreeEdge s e' l rh d) in *.
    set (memo1 := (edge, []) :: memo).
    assert (Hcalls : Chart.child_pointer_lists c edge <> [] ->
                     forall m, memo_le memo1 m -> unseen c m < fuel).
    { intros Hne m Hm.
      assert (Hin : In edge (Chart.edges c)).
      { destruct (in_dec Chart.Edge_eq_dec edge (Chart.edges c)) as [? | Hn];
          [assumption |].
        exfalso. apply Hne. unfold Chart.child_pointer_lists.
        apply lookup_none in Hn. now rewrite Hn. }
      pose proof (unseen_lt c memo edge [] Hin Hmemo).
      pose proof (unseen_le c memo1 m Hm). unfold memo1 in *. lia. }
    match goal with
    | |- context [foldM ?f ?l ?s] =>
        destruct (foldM_inv (fun acc : list Tree * Chart.Memo =>
                               memo_le memo1 (snd acc)) f l s) as [Hnd Hret]
    end.
    + apply memo_le_refl.
    + intros acc cpl_ Hin Hacc.
      assert (Hne : Chart.child_pointer_lists c edge <> [])
        by (intro E; rewrite E in Hin; destruct Hin).
      match goal with
      | |- context [foldM ?f ?l ?s] =>
          destruct (foldM_inv (fun acc' : list (list Tree) * Chart.Memo =>
                                 memo_le memo1 (snd acc')) f l s)
            as [Hnd' Hret']
      end.
      * exact Hacc.
      * intros acc' cp _ Hacc'.
        destruct (IH cp (snd acc') (Hcalls Hne _ Hacc')) as [Hd Hr].
        destruct (Chart._trees fuel c cp (snd acc')) as [r | e |];
          [| split; discriminate | congruence].
        split; [discriminate |]. intros s' [= <-]. simpl.
        eapply memo_le_trans; [exact Hacc' | now apply Hr].
      * match goal with
        | |- context [foldM ?f ?l ?s] =>
            destruct (foldM f l s) as [r | e |]
        end; [| split; discriminate | congruence].
        split; [discriminate |]. intros s' [= <-]. simpl. now apply Hret'.
    + match goal with
      | |- context [foldM ?f ?l ?s] => destruct (foldM f l s) as [r | e |]
      end; [| split; discriminate | congruence].
      split; [discriminate |]. intros r' [= <-]. simpl.
      eapply memo_le_trans; [apply (memo_le_cons edge [] memo) |].
      eapply memo_le_trans; [now apply Hret | apply memo_le_cons].
  - cbn [Chart.edge_start].
    destruct (nth_error (Chart.tokens c) i); [| split; discriminate].
    split; [discriminate | intros r [= <-]; apply memo_le_cons].
Qed.

Lemma trees_terminates c edge : Chart.trees c edge <> Diverge.
Proof.
  unfold Chart.trees.
  destruct (_trees_terminates c (S (length (Chart.edges c))) edge []) as [H _].
  - unfold unseen.
    match goal with
    | |- length (filter ?f ?l) < _ => pose proof (filter_length_le f l)
    end.
    lia.
  - destruct (Chart._trees (S (length (Chart.edges c))) c edge []);
      simpl; congruence.
Qed.

Lemma parses_from_ends c roots : fin (Chart.parses_from c roots) <> Hangs.
Proof.
  induction roots as [| edge roots IH]; simpl; [discriminate |].
  pose proof (trees_terminates c edge) as H.
  destruct (Chart.trees c edge); simpl; [exact IH | discriminate | congruence].
Qed.

(** The chart parser of any grammar comes back on any tokens: it raises,
    or it returns an iterator that ends. *)
Lemma ChartParser_terminates g toks :
  (exists e, parser_parse (ChartParser g) toks = Raise e)
  \/ (exists it, parser_parse (ChartParser g) toks = Return it /\ fin it <> Hangs).
Proof.
  simpl. destruct (chart_parse_returns g toks) as [[e H] | [c H]]; rewrite H; simpl.
  - left. eauto.
  - right. eexists. split; [reflexivity | apply parses_from_ends].
Qed.

Lemma parse_returns self text g :
  parser self = ChartParser g -> exists trees, parse self text = Return trees.
Proof.
  intro Hp. unfold parse. rewrite Hp.
  destruct (ChartParser_terminates g (tokenize self text))
    as [[e H] | (it & H & Hfin)]; rewrite H; simpl; [eauto |].
  unfold list_. destruct (fin it); simpl; [eauto | eauto | congruence].
Qed.

(** C7: the grammar has, for each of the four primed nonterminals, an
    epsilon production and a production that ends in the nonterminal
    itself; all the same, on every token sequence the chart parser (of
    this or any other grammar) comes back: it raises, or it returns an
    iterator that ends; and on every text [parse] returns a list of
    trees. *)
Theorem parse_terminates :
  Forall (fun name =>
            In (rule name []) (productions musical_grammar)
            /\ exists first,
                 In (rule name [first; NT name]) (productions musical_grammar))
         prime_nonterminals
  /\ (forall g toks,
        (exists e, parser_parse (ChartParser g) toks = Raise e)
        \/ (exists it, parser_parse (ChartParser g) toks = Return it
                       /\ fin it <> Hangs))
  /\ (forall debug_, exists self,
        __init__ debug_ = Return self
        /\ forall text, exists trees, parse self text = Return trees).
Proof.
  split; [| split].
  - unfold prime_nonterminals.
    repeat apply Forall_cons; try apply Forall_nil; (split; [find_in |]).
    + exists (NT "Phrase"). find_in.
    + exists (NT "Note"). find_in.
    + exists (NT "Chord"). find_in.
    + exists (NT "Pitch"). find_in.
  - apply ChartParser_terminates.
  - intro debug_. exists (musical_parser debug_).
    split; [apply init_returns |].
    intro text. apply (parse_returns _ text musical_grammar). reflexivity.
Qed.

(* ================================================================== *)
(** * Calls of [parse] in a row *)
(* ================================================================== *)







(** Repeatability is a property of the chart parser, not of the way
    [parse] is written: on a parser object that remembers its calls, two
    calls in a row differ. *)
Lemma once_parser_differs gs g d text :
  Stateful.parse_twice (Stateful.mkObject gs g Stateful.once_parser d false) text
  = Return ([Leaf []], []).
Proof. reflexivity. Qed.


(* ================================================================== *)
(** * Further properties of [tokenize] *)
(* ================================================================== *)

Lemma paren_not_space c : (c = lparen \/ c = rparen) -> Py.isspace c = false.
Proof. intros [-> | ->]; reflexivity. Qed.

Lemma scan_step_space c word text :
  Py.isspace c = true ->
  scan_from word (c :: text) = Py.flush word ++ scan_from [] text.
Proof.
  intro Hc. simpl.
  destruct (N.eqb_spec c lparen) as [-> | _]; [discriminate Hc |].
  destruct (N.eqb_spec c rparen) as [-> | _]; [discriminate Hc |].
  simpl. now rewrite Hc.
Qed.

Lemma scan_step_paren c word text :
  c = lparen \/ c = rparen ->
  scan_from word (c :: text) = Py.flush word ++ [c] :: scan_from [] text.
Proof. intros [-> | ->]; reflexivity. Qed.

Lemma scan_step_letter c word text :
  Py.isspace c = false -> c <> lparen -> c <> rparen ->
  scan_from word (c :: text) = scan_from (c :: word) text.
Proof.
  intros Hc Hl Hr. simpl.
  destruct (N.eqb_spec c lparen); [contradiction |].
  destruct (N.eqb_spec c rparen); [contradiction |].
  simpl. now rewrite Hc.
Qed.

(** A separator (whitespace or a parenthesis) ends whatever came before
    it: the text after it is scanned afresh. *)
Lemma scan_app_space a : forall word c b,
  Py.isspace c = true ->
  scan_from word (a ++ c :: b) = scan_from word a ++ scan_from [] b.
Proof.
  induction a as [| x a IH]; intros word c b Hc.
  - simpl app. now rewrite scan_step_space.
  - change ((x :: a) ++ c :: b) with (x :: (a ++ c :: b)).
    cbn [scan_from].
    destruct ((x =? lparen)%N || (x =? rparen)%N).
    + rewrite IH by assumption. now rewrite <- app_assoc.
    + destruct (Py.isspace x).
      * rewrite IH by assumption. now rewrite <- app_assoc.
      * now apply IH.
Qed.

Lemma scan_app_paren a : forall word c b,
  c = lparen \/ c = rparen ->
  scan_from word (a ++ c :: b) = scan_from word a ++ [c] :: scan_from [] b.
Proof.
  induction a as [| x a IH]; intros word c b Hc.
  - simpl app. now rewrite scan_step_paren.
  - change ((x :: a) ++ c :: b) with (x :: (a ++ c :: b)).
    cbn [scan_from].
    destruct ((x =? lparen)%N || (x =? rparen)%N).
    + rewrite IH by assumption. now rewrite <- app_assoc.
    + destruct (Py.isspace x).
      * rewrite IH by assumption. now rewrite <- app_assoc.
      * now apply IH.
Qed.

(** Scanning a word without separators only collects it. *)
Lemma scan_word tok : forall word rest,
  clean tok -> paren_free tok ->
  scan_from word (tok ++ rest) = scan_from (rev tok ++ word) rest.
Proof.
  induction tok as [| x tok IH]; intros word rest Hclean [Hl Hr]; [reflexivity |].
  change ((x :: tok) ++ rest) with (x :: (tok ++ rest)).
  rewrite scan_step_letter.
  - rewrite IH.
    + simpl. now rewrite <- app_assoc.
    + intros y Hy. apply Hclean. now right.
    + split; intro H; [apply Hl | apply Hr]; now right.
  - apply Hclean. now left.
  - intros ->. apply Hl. now left.
  - intros ->. apply Hr. now left.
Qed.

Lemma scan_tokens_ok text : forall word,
  clean word -> paren_free word -> Forall token_ok (scan_from word text).
Proof.
  assert (Hflush : forall word, clean word -> paren_free word ->
            Forall token_ok (Py.flush word)).
  { intros [| x word] Hc [Hl Hr]; simpl; constructor; [| constructor].
    right. right. split; [| split].
    - intro H. apply (f_equal (@length N)) in H.
      rewrite length_app in H. simpl in H. lia.
    - apply (clean_rev Hc).
    - split; intro H; [apply Hl | apply Hr]; apply in_rev; exact H. }
  assert (Hnil : clean [] /\ paren_free []).
  { split; [intros x [] | split; intros []]. }
  induction text as [| c text IH]; intros word Hc Hp; simpl.
  - now apply Hflush.
  - destruct (N.eqb_spec c lparen) as [-> | Hl]; simpl.
    { apply Forall_app. split; [now apply Hflush |].
      constructor; [now left | apply IH; apply Hnil]. }
    destruct (N.eqb_spec c rparen) as [-> | Hr]; simpl.
    { apply Forall_app. split; [now apply Hflush |].
      constructor; [right; now left | apply IH; apply Hnil]. }
    destruct (Py.isspace c) eqn:Hs.
    + apply Forall_app. split; [now apply Hflush | apply IH; apply Hnil].
    + apply IH; [now apply clean_cons |].
      destruct Hp as [H1 H2]. split; intros [E | H]; auto.
Qed.

Lemma scan_one_token tok : token_ok tok -> scan_from [] tok = [tok].
Proof.
  intros [-> | [-> | (Hne & Hc & Hp)]]; [reflexivity | reflexivity |].
  rewrite <- (app_nil_r tok) at 1. rewrite scan_word by assumption.
  rewrite app_nil_r. cbn [scan_from]. unfold Py.flush.
  destruct (rev tok) as [| x r] eqn:E.
  - exfalso. apply Hne. rewrite <- (rev_involutive tok), E. reflexivity.
  - rewrite <- E, rev_involutive. reflexivity.
Qed.

Lemma scan_join toks :
  Forall token_ok toks -> scan_from [] (Py.join (Py.lit " ") toks) = toks.
Proof.
  induction 1 as [| tok toks Htok Htoks IH]; [reflexivity |].
  destruct toks as [| tok' toks].
  - simpl. now apply scan_one_token.
  - change (Py.join (Py.lit " ") (tok :: tok' :: toks))
      with (tok ++ 32%N :: Py.join (Py.lit " ") (tok' :: toks)).
    rewrite scan_app_space by reflexivity.
    rewrite IH. now rewrite scan_one_token.
Qed.

(** X1: joining tokens with single blanks and tokenizing again gives the
    tokens back; the tokens of [tokenize] are of that kind, so the blank-
    joined tokens of a text are a normal form of it. *)
Theorem tokenize_join_round_trip :
  forall self,
    (forall toks, Forall token_ok toks ->
                  tokenize self (Py.join (Py.lit " ") toks) = toks)
    /\ (forall text, Forall token_ok (tokenize self text))
    /\ (forall text,
          tokenize self (Py.join (Py.lit " ") (tokenize self text))
          = tokenize self text).
Proof.
  intro self.
  assert (H1 : forall toks, Forall token_ok toks ->
                 tokenize self (Py.join (Py.lit " ") toks) = toks).
  { intros toks H. rewrite tokenize_scan. now apply scan_join. }
  assert (H2 : forall text, Forall token_ok (tokenize self text)).
  { intro text. rewrite tokenize_scan. apply scan_tokens_ok.
    - intros x [].
    - split; intros []. }
  split; [exact H1 | split; [exact H2 |]].
  intro text. apply H1, H2.
Qed.

Lemma tokenize_join_round_trip_witness :
  Forall token_ok (map Py.lit ["("; "C"; ")"; "whole"]%string)
  /\ tokenize (musical_parser false)
       (Py.join (Py.lit " ") (map Py.lit ["("; "C"; ")"; "whole"]%string))
     = map Py.lit ["("; "C"; ")"; "whole"]%string.
Proof.
  assert (H : Forall token_ok (map Py.lit ["("; "C"; ")"; "whole"]%string)).
  { apply (proj1 (proj2 (tokenize_join_round_trip (musical_parser false)))
             (Py.lit "(C)whole")). }
  split; [exact H |].
  apply (proj1 (tokenize_join_round_trip (musical_parser false)) _ H).
Defined.

(** X2: [tokenize] works piece by piece: whitespace between two texts
    separates their tokens, a parenthesis between them is a token of its
    own, and a word without whitespace and parentheses is one token. *)
Theorem tokenize_composes :
  forall self a b c,
    (Py.isspace c = true ->
     tokenize self (a ++ c :: b) = tokenize self a ++ tokenize self b)
    /\ (c = lparen \/ c = rparen ->
        tokenize self (a ++ c :: b)
        = tokenize self a ++ [c] :: tokenize self b)
    /\ (a <> [] -> clean a -> paren_free a -> tokenize self a = [a]).
Proof.
  intros self a b c. rewrite !tokenize_scan. unfold tokenize_spec.
  split; [| split].
  - now apply scan_app_space.
  - now apply scan_app_paren.
  - intros Hne Hc Hp. apply scan_one_token. right. right. auto.
Qed.

Lemma tokenize_composes_witness :
  tokenize (musical_parser false) (Py.lit "C quarter" ++ 10%N :: Py.lit "(D)")
  = tokenize (musical_parser false) (Py.lit "C quarter")
    ++ tokenize (musical_parser false) (Py.lit "(D)")
  /\ tokenize (musical_parser false) (Py.lit "C" ++ lparen :: Py.lit "D")
     = tokenize (musical_parser false) (Py.lit "C")
       ++ [lparen] :: tokenize (musical_parser false) (Py.lit "D")
  /\ tokenize (musical_parser false) (Py.lit "quarter") = [Py.lit "quarter"].
Proof.
  split; [| split].
  - apply (proj1 (tokenize_composes (musical_parser false)
                    (Py.lit "C quarter") (Py.lit "(D)") 10%N)).
    reflexivity.
  - apply (proj1 (proj2 (tokenize_composes (musical_parser false)
                           (Py.lit "C") (Py.lit "D") lparen))).
    left. reflexivity.
  - apply (proj2 (proj2 (tokenize_composes (musical_parser false)
                           (Py.lit "quarter") [] 0%N))).
    + discriminate.
    + intros x Hx. vm_compute in Hx.
      repeat (destruct Hx as [<- | Hx]; [reflexivity |]). destruct Hx.
    + split; intro Hx; vm_compute in Hx;
        repeat (destruct Hx as [Hx | Hx]; [discriminate Hx |]); destruct Hx.
Defined.

(* ================================================================== *)
(** * Further properties of [parse] and [is_valid] *)
(* ================================================================== *)

(** X3: whatever its parser does, [parse] never raises, and neither does
    [is_valid]; [parse] fails to come back only when the parser does
    (while building the chart, or while the trees are read off). *)
Theorem parse_never_raises :
  forall self text,
    (forall e, parse self text <> Raise e)
    /\ (forall e, is_valid self text <> Raise e)
    /\ (parse self text = Diverge
        <-> parser_parse (parser self) (tokenize self text) = Diverge
            \/ exists it,
                 parser_parse (parser self) (tokenize self text) = Return it
                 /\ fin it = Hangs).
Proof.
  intros self text.
  assert (H : forall e, parse self text <> Raise e).
  { intro e. unfold parse.
    destruct (parser_parse (parser self) (tokenize self text)) as [it | e' |];
      simpl; try discriminate.
    unfold list_. destruct (fin it); simpl; discriminate. }
  split; [exact H | split].
  - intros e. unfold is_valid. specialize (H e).
    destruct (parse self text); simpl; congruence.
  - unfold parse.
    destruct (parser_parse (parser self) (tokenize self text)) as [it | e' |];
      simpl.
    + unfold list_. destruct (fin it) eqn:E; simpl.
      * split; [discriminate | intros [H' | (it' & [= <-] & H')]; congruence].
      * split; [discriminate | intros [H' | (it' & [= <-] & H')]; congruence].
      * split; [intros _; right; eauto | reflexivity].
    + split; [discriminate | intros [H' | (it' & H' & _)]; discriminate].
    + split; [now left | reflexivity].
Qed.

(** X4: [parse] and [is_valid] see the text only through its tokens:
    texts with the same tokens get the same answer, so a text and its
    blank-joined tokens do, and so do texts that differ in the kind of
    whitespace between two parts. *)
Theorem parse_depends_on_tokens :
  forall self,
    (forall a b, tokenize self a = tokenize self b ->
       parse self a = parse self b /\ is_valid self a = is_valid self b)
    /\ (forall text,
          parse self (Py.join (Py.lit " ") (tokenize self text)) = parse self text
          /\ is_valid self (Py.join (Py.lit " ") (tokenize self text))
             = is_valid self text)
    /\ (forall a b c c',
          Py.isspace c = true -> Py.isspace c' = true ->
          parse self (a ++ c :: b) = parse self (a ++ c' :: b)
          /\ is_valid self (a ++ c :: b) = is_valid self (a ++ c' :: b)).
Proof.
  intro self.
  assert (H : forall a b, tokenize self a = tokenize self b ->
                parse self a = parse self b /\ is_valid self a = is_valid self b).
  { intros a b E. assert (Hp : parse self a = parse self b)
      by (unfold parse; now rewrite E).
    split; [exact Hp | unfold is_valid; now rewrite Hp]. }
  split; [exact H | split].
  - intro text. apply H. rewrite !tokenize_scan. apply scan_join.
    apply scan_tokens_ok.
    + intros x [].
    + split; intros [].
  - intros a b c c' Hc Hc'. apply H.
    transitivity (tokenize self a ++ tokenize self b); [| symmetry];
      rewrite !tokenize_scan; unfold tokenize_spec; now apply scan_app_space.
Qed.

Lemma parse_depends_on_tokens_witness :
  parse (musical_parser false) (Py.lit "C" ++ 9%N :: Py.lit "quarter")
  = parse (musical_parser false) (Py.lit "C" ++ 10%N :: Py.lit "quarter")
  /\ parse (musical_parser false) (Py.lit "(C E G)whole")
     = parse (musical_parser false) (Py.lit "( C E G ) whole").
Proof.
  split.
  - apply (proj2 (proj2 (parse_depends_on_tokens (musical_parser false)))
             (Py.lit "C") (Py.lit "quarter") 9%N 10%N); reflexivity.
  - apply (proj1 (parse_depends_on_tokens (musical_parser false))
             (Py.lit "(C E G)whole") (Py.lit "( C E G ) whole")).
    vm_compute. reflexivity.
Defined.

Lemma check_coverage_raises g toks tok :
  In tok toks -> Grammar.covers g tok = false ->
  exists e, Grammar.check_coverage g toks = Raise e.
Proof.
  intros Hin Hcov. unfold Grammar.check_coverage.
  destruct (filter (fun tok => negb (Grammar.covers g tok)) toks) eqn:E.
  - exfalso. assert (H : In tok (filter (fun tok => negb (Grammar.covers g tok)) toks))
      by (apply filter_In; split; [exact Hin | now rewrite Hcov]).
    rewrite E in H. destruct H.
  - eexists. reflexivity.
Qed.

Lemma str_eqb_eq a b : Py.str_eqb a b = true <-> a = b.
Proof.
  unfold Py.str_eqb. destruct (list_eq_dec N.eq_dec a b); split; congruence.
Qed.

Lemma symbol_eqb_eq a b : symbol_eqb a b = true <-> a = b.
Proof. unfold symbol_eqb. destruct (symbol_eq_dec a b); split; congruence. Qed.

Lemma covers_musical tok :
  Grammar.covers musical_grammar tok = true -> in_lexicon tok = true.
Proof.
  unfold Grammar.covers. intro H.
  apply existsb_exists in H as (p & Hp & H).
  unfold Grammar.is_terminal_in in H.
  apply existsb_exists in H as (s & Hs & H).
  apply symbol_eqb_eq in H. subst s.
  unfold musical_grammar in Hp. cbn [productions] in Hp.
  repeat (destruct Hp as [<- | Hp];
          [cbn [rhs rule] in Hs;
           repeat (destruct Hs as [Hs | Hs];
                   [try discriminate Hs; injection Hs as <-; reflexivity |]);
           destruct Hs |]).
  destruct Hp.
Qed.

Lemma parse_of_raise self text e :
  parser_parse (parser self) (tokenize self text) = Raise e ->
  parse self text = Return [].
Proof. intro H. unfold parse. now rewrite H. Qed.

(** X5: a text with a token that is not one of the fourteen terminals of
    the grammar (the seven pitches in upper case, the five durations in
    lower case and the two parentheses) is invalid: [parse] returns the
    empty list and [is_valid] false.  In particular the language is
    case-sensitive. *)
Theorem unknown_token_is_invalid :
  forall debug_ text tok,
    In tok (tokenize (musical_parser debug_) text) ->
    in_lexicon tok = false ->
    parse (musical_parser debug_) text = Return []
    /\ is_valid (musical_parser debug_) text = Return false.
Proof.
  intros debug_ text tok Hin Hlex.
  assert (Hcov : Grammar.covers musical_grammar tok = false).
  { destruct (Grammar.covers musical_grammar tok) eqn:E; [| reflexivity].
    apply covers_musical in E. congruence. }
  destruct (check_coverage_raises musical_grammar _ tok Hin Hcov) as [e He].
  assert (Hp : parse (musical_parser debug_) text = Return []).
  { apply (parse_of_raise (musical_parser debug_) text e).
    simpl. unfold Chart.chart_parse. now rewrite He. }
  split; [exact Hp | unfold is_valid; now rewrite Hp].
Qed.

Lemma unknown_token_is_invalid_witness :
  In (Py.lit "c") (tokenize (musical_parser false) (Py.lit "c quarter"))
  /\ in_lexicon (Py.lit "c") = false
  /\ is_valid (musical_parser false) (Py.lit "c quarter") = Return false.
Proof.
  assert (H : In (Py.lit "c") (tokenize (musical_parser false) (Py.lit "c quarter")))
    by (vm_compute; left; reflexivity).
  split; [exact H | split; [reflexivity |]].
  apply (unknown_token_is_invalid false (Py.lit "c quarter") (Py.lit "c") H).
  reflexivity.
Defined.

(* ================================================================== *)
(** * Further properties of [generate_examples] *)
(* ================================================================== *)

Lemma wanted_positive n : 1 <= wanted n.
Proof. unfold wanted. lia. Qed.

(** Once the generator has yielded the wanted number of sentences, the
    loop leaves without looking at how the generator would go on. *)
Lemma collect_enough n ending_ : forall sentences examples,
  length examples < wanted n ->
  wanted n <= length examples + length sentences ->
  collect n examples sentences ending_
  = Return (examples ++ joined (firstn (wanted n - length examples) sentences)).
Proof.
  unfold wanted.
  induction sentences as [| s rest IH]; intros examples Hlt Hle; simpl in *;
    [lia |].
  rewrite length_app. simpl length.
  destruct (Z.leb_spec n (Z.of_nat (length examples + 1))) as [H | H].
  - replace (Z.to_nat (Z.max n 1) - length examples) with 1 by lia.
    reflexivity.
  - rewrite IH by (rewrite length_app; simpl; lia).
    rewrite length_app. simpl length.
    replace (Z.to_nat (Z.max n 1) - length examples)
      with (S (Z.to_nat (Z.max n 1) - (length examples + 1))) by lia.
    simpl. rewrite <- app_assoc. reflexivity.
Qed.

Lemma collect_shape n ending_ : forall sentences examples l,
  collect n examples sentences ending_ = Return l ->
  exists k, l = examples ++ joined (firstn k sentences)
            /\ (length examples < wanted n -> length l <= wanted n).
Proof.
  unfold wanted.
  induction sentences as [| s rest IH]; intros examples l H; simpl in H.
  - destruct ending_; try discriminate H. injection H as <-.
    exists 0. simpl. rewrite app_nil_r. split; [reflexivity | lia].
  - rewrite length_app in H. simpl length in H.
    destruct (Z.leb_spec n (Z.of_nat (length examples + 1))) as [Hle | Hgt].
    + injection H as <-. exists 1. split; [reflexivity |].
      rewrite length_app. simpl. lia.
    + destruct (IH _ _ H) as (k & -> & Hlen). exists (S k). split.
      * simpl. rewrite <- app_assoc. reflexivity.
      * intros _. apply Hlen. rewrite length_app. simpl. lia.
Qed.

(** X6: whatever the generator does, [generate_examples] never raises;
    what it returns is either the manual examples or the blank-joined
    first sentences of the generator, in order and at most
    [max(n, 1)] of them. *)
Theorem generate_examples_never_raises :
  forall (generate : CFG -> Z -> Z -> outcome (iterator (list pystr)))
         (self : MusicalLanguageParser) (n depth : Z),
    (forall e, generate_examples generate self n depth <> Raise e)
    /\ (forall l,
          generate_examples generate self n depth = Return l ->
          l = manual_examples
          \/ exists it k,
               generate (grammar self) depth n = Return it
               /\ l = joined (firstn k (items it))
               /\ length l <= wanted n).
Proof.
  intros generate self n depth. unfold generate_examples. split.
  - intro e. destruct (generate (grammar self) depth n) as [it | e' |]; simpl;
      try discriminate.
    destruct (collect n [] (items it) (fin it)); simpl; discriminate.
  - intros l H.
    destruct (generate (grammar self) depth n) as [it | e' |]; simpl in H;
      [| injection H as <-; now left | discriminate H].
    destruct (collect n [] (items it) (fin it)) as [l' | e' |] eqn:E;
      simpl in H; [| injection H as <-; now left | discriminate H].
    injection H as <-. right.
    destruct (collect_shape n (fin it) (items it) [] l' E) as (k & -> & Hlen).
    exists it, k. split; [reflexivity | split; [reflexivity |]].
    apply Hlen. simpl. pose proof (wanted_positive n). lia.
Qed.

Lemma generate_examples_never_raises_witness :
  generate_examples (Generate.generate Generate.recursion_limit)
    (musical_parser false) 10 8
  = Return (map Py.lit ["A whole"; "A half"; "A quarter"; "A eighth";
                        "A sixteenth"; "B whole"; "B half"; "B quarter";
                        "B eighth"; "B sixteenth"]%string)
  /\ (map Py.lit ["A whole"; "A half"; "A quarter"; "A eighth";
                  "A sixteenth"; "B whole"; "B half"; "B quarter";
                  "B eighth"; "B sixteenth"]%string = manual_examples
      \/ exists it k,
           Generate.generate Generate.recursion_limit
             (grammar (musical_parser false)) 8 10 = Return it
           /\ map Py.lit ["A whole"; "A half"; "A quarter"; "A eighth";
                          "A sixteenth"; "B whole"; "B half"; "B quarter";
                          "B eighth"; "B sixteenth"]%string
              = joined (firstn k (items it))
           /\ length (map Py.lit ["A whole"; "A half"; "A quarter"; "A eighth";
                                  "A sixteenth"; "B whole"; "B half"; "B quarter";
                                  "B eighth"; "B sixteenth"]%string)
              <= wanted 10).
Proof.
  assert (H : generate_examples (Generate.generate Generate.recursion_limit)
    (musical_parser false) 10 8
              = Return (map Py.lit ["A whole"; "A half"; "A quarter"; "A eighth";
                                    "A sixteenth"; "B whole"; "B half";
                                    "B quarter"; "B eighth"; "B sixteenth"]%string))
    by (vm_compute; reflexivity).
  split; [exact H |].
  exact (proj2 (generate_examples_never_raises
                  (Generate.generate Generate.recursion_limit)
                  (musical_parser false) 10 8) _ H).
Defined.

(** X7: [generate_examples] reads no further than it needs: when the
    generator yields at least [max(n, 1)] sentences, the result is the
    first [max(n, 1)] of them, blank-joined, even if the generator would
    raise or never come back afterwards.  With [n <= 0] this is one
    example, not none. *)
Theorem generate_examples_stops_early :
  forall (generate : CFG -> Z -> Z -> outcome (iterator (list pystr)))
         (self : MusicalLanguageParser) (n depth : Z) (it : iterator (list pystr)),
    generate (grammar self) depth n = Return it ->
    (wanted n <= length (items it) ->
     generate_examples generate self n depth
     = Return (joined (firstn (wanted n) (items it))))
    /\ ((n <= 0)%Z ->
        forall s rest, items it = s :: rest ->
          generate_examples generate self n depth
          = Return [Py.join (Py.lit " ") s]).
Proof.
  intros generate self n depth it Hgen.
  assert (H : wanted n <= length (items it) ->
              generate_examples generate self n depth
              = Return (joined (firstn (wanted n) (items it)))).
  { intro Hlen. unfold generate_examples. rewrite Hgen. simpl.
    rewrite collect_enough; simpl.
    - now rewrite Nat.sub_0_r.
    - pose proof (wanted_positive n). lia.
    - lia. }
  split; [exact H |].
  intros Hn s rest Hitems. rewrite H.
  - rewrite Hitems. unfold wanted.
    replace (Z.to_nat (Z.max n 1)) with 1 by lia. reflexivity.
  - rewrite Hitems. unfold wanted. simpl. lia.
Qed.

Lemma generate_examples_stops_early_witness :
  generate_examples hanging_generate (musical_parser false) 1 5
  = Return [Py.lit "C quarter"]
  /\ generate_examples hanging_generate (musical_parser false) 0 5
     = Return [Py.lit "C quarter"].
Proof.
  pose proof (generate_examples_stops_early hanging_generate
                (musical_parser false)) as H.
  split.
  - apply (proj1 (H 1%Z 5%Z _ eq_refl)). vm_compute. lia.
  - apply (proj2 (H 0%Z 5%Z _ eq_refl) ltac:(lia)
             [Py.lit "C"; Py.lit "quarter"] [] eq_refl).
Defined.

(** X8: the manual examples that [generate_examples] falls back to are
    sentences of the grammar: [is_valid] returns true for each. *)
Theorem manual_examples_are_valid :
  forall debug_,
    Forall (fun example => is_valid (musical_parser debug_) example = Return true)
           manual_examples.
Proof. intro debug_. repeat constructor; vm_compute; reflexivity. Qed.

(** X9: the expectations of [test_parser] hold: [is_valid] returns true
    for each of its valid examples and false for each of its invalid
    examples. *)
Theorem test_parser_expectations :
  forall debug_,
    Forall (fun example => is_valid (musical_parser debug_) example = Return true)
           valid_examples
    /\ Forall (fun example =>
                 is_valid (musical_parser debug_) example = Return false)
              invalid_examples.
Proof. intro debug_. split; repeat constructor; vm_compute; reflexivity. Qed.

(* ================================================================== *)
(** * The trees of the chart parser are derivations of the tokens *)
(* ================================================================== *)

Lemma add_cpls_in new : forall old l,
  In l (fst (Chart.add_cpls old new)) -> In l old \/ In l new.
Proof.
  induction new as [| x new IH]; intros old l H; simpl in *; [now left |].
  destruct (in_dec Chart.cpl_eq_dec x old).
  - destruct (IH old l H); auto.
  - simpl in H. destruct (IH _ l H) as [H' | H']; auto.
    apply in_app_or in H' as [? | [<- | []]]; auto.
Qed.

Lemma child_pointer_lists_sound c e :
  chart_sound c -> Forall (cpl_sound e) (Chart.child_pointer_lists c e).
Proof.
  intro Hc. unfold Chart.child_pointer_lists.
  destruct (Chart.lookup e (Chart.edge_to_cpls c)) as [cpls |] eqn:E;
    [| constructor].
  apply lookup_in in E. unfold chart_sound in Hc. rewrite Forall_forall in Hc.
  apply (Hc _ E).
Qed.

Lemma insert_sound c e new :
  chart_sound c -> span_ok e -> Forall (cpl_sound e) new ->
  chart_sound (fst (Chart.insert c e new)).
Proof.
  intros Hc He Hnew. unfold Chart.insert.
  pose proof (child_pointer_lists_sound c e Hc) as Hold.
  pose proof (add_cpls_in new (Chart.child_pointer_lists c e)) as Hin.
  destruct (Chart.add_cpls (Chart.child_pointer_lists c e) new) as [cpls m].
  simpl in *. unfold chart_sound. simpl.
  apply set_cpls_Forall; [exact Hc |].
  split; [exact He |]. simpl. apply Forall_forall. intros l Hl.
  rewrite Forall_forall in Hold, Hnew. destruct (Hin l Hl); auto.
Qed.

Lemma yield_if_sound st e new :
  yield_sound st -> span_ok e -> Forall (cpl_sound e) new ->
  yield_sound (Chart.yield_if st (Chart.insert (fst st) e new) e).
Proof.
  intros [Hc Hy] He Hnew. unfold yield_sound, Chart.yield_if. simpl.
  split; [now apply insert_sound |].
  destruct (snd (Chart.insert (fst st) e new)); [| exact Hy].
  apply Forall_app. split; [exact Hy | constructor; [exact He | constructor]].
Qed.

Lemma yield_sound_start c : chart_sound c -> yield_sound (c, []).
Proof. intro H. split; [exact H | constructor]. Qed.

Lemma LeafInitRule_sound c : chart_sound c -> yield_sound (Chart.LeafInitRule c).
Proof.
  intro Hc. unfold Chart.LeafInitRule.
  apply fold_left_inv; [now apply yield_sound_start |].
  intros st i _ Hst. apply yield_if_sound; [exact Hst | |].
  - unfold span_ok. simpl. lia.
  - constructor; [exact I | constructor].
Qed.

Lemma EmptyPredictRule_sound g c :
  chart_sound c -> yield_sound (Chart.EmptyPredictRule g c).
Proof.
  intro Hc. unfold Chart.EmptyPredictRule.
  apply fold_left_inv; [now apply yield_sound_start |].
  intros st p _ Hst. apply fold_left_inv; [exact Hst |].
  intros st' i _ Hst'. apply yield_if_sound; [exact Hst' | |].
  - unfold span_ok. simpl. lia.
  - constructor; [| constructor]. simpl. repeat split; constructor.
Qed.

Lemma BottomUpPredictCombineRule_sound g c edge :
  chart_sound c -> span_ok edge ->
  yield_sound (Chart.BottomUpPredictCombineRule g c edge).
Proof.
  intros Hc He. unfold Chart.BottomUpPredictCombineRule.
  destruct (Chart.is_incomplete edge) eqn:Hinc; [now apply yield_sound_start |].
  apply fold_left_inv; [now apply yield_sound_start |].
  intros st p Hp Hst.
  unfold Grammar.productions_rhs in Hp. apply filter_In in Hp as [_ Hrhs].
  apply yield_if_sound; [exact Hst | exact He |].
  constructor; [| constructor]. simpl.
  destruct (rhs p) as [| s r]; [discriminate |].
  apply symbol_eqb_eq in Hrhs. subst s.
  split; [| split].
  - simpl. repeat split. exact He.
  - constructor; [| constructor].
    unfold Chart.is_incomplete in Hinc. now destruct (Chart.is_complete edge).
  - reflexivity.
Qed.

Lemma chain_snoc l : forall s m c,
  chain s l m -> Chart.edge_start c = m -> span_ok c ->
  chain s (l ++ [c]) (Chart.edge_end c).
Proof.
  induction l as [| x l IH]; intros s m c H Hs Hc; simpl in *.
  - subst. auto.
  - destruct H as (H1 & H2 & H3). repeat split; auto. eapply IH; eauto.
Qed.

Lemma chain_span l : forall s e, chain s l e -> s <= e.
Proof.
  induction l as [| x l IH]; intros s e H; simpl in H.
  - subst. lia.
  - destruct H as (<- & H2 & H3). apply IH in H3. unfold span_ok in H2. lia.
Qed.

Lemma firstn_S_nth_error {A : Type} (l : list A) : forall d x,
  nth_error l d = Some x -> firstn (S d) l = firstn d l ++ [x].
Proof.
  induction l as [| a l IH]; intros [| d] x H; simpl in *; try discriminate.
  - now injection H as <-.
  - now rewrite (IH d x H).
Qed.

(** Moving the dot of [left_] over [right_] gives a sound edge. *)
Lemma backpointer_sound st left_ right_ :
  yield_sound st -> span_ok left_ -> span_ok right_ ->
  Chart.is_incomplete left_ = true ->
  Chart.is_complete right_ = true ->
  Chart.edge_start right_ = Chart.edge_end left_ ->
  Chart.nextsym left_ = Some (Chart.edge_lhs right_) ->
  yield_sound
    (Chart.yield_if st
       (Chart.insert_with_backpointer (fst st)
          (Chart.move_dot_forward left_ (Chart.edge_end right_)) left_ right_)
       (Chart.move_dot_forward left_ (Chart.edge_end right_))).
Proof.
  intros Hst Hl Hr Hinc Hcomp Hstart Hnext.
  destruct left_ as [s e' l r d | leaf i]; [| discriminate Hinc].
  unfold Chart.insert_with_backpointer.
  apply yield_if_sound; [exact Hst | |].
  - unfold span_ok in *. simpl in *. lia.
  - destruct Hst as [Hc _].
    pose proof (child_pointer_lists_sound (fst st)
                  (Chart.TreeEdge s e' l r d) Hc) as Hold.
    apply Forall_forall. intros x Hx. apply in_map_iff in Hx as (l0 & <- & Hl0).
    rewrite Forall_forall in Hold. destruct (Hold l0 Hl0) as (H1 & H2 & H3).
    simpl in *. split; [| split].
    + eapply chain_snoc; eauto.
    + apply Forall_app. split; [exact H2 | constructor; [exact Hcomp | constructor]].
    + rewrite map_app, H3. simpl. symmetry. now apply firstn_S_nth_error.
Qed.

Lemma select_sound c restr e :
  chart_sound c -> In e (Chart.select c restr) -> span_ok e /\ restr e = true.
Proof.
  intros Hc Hin. unfold Chart.select in Hin.
  apply filter_In in Hin as [Hin Hr]. split; [| exact Hr].
  unfold Chart.edges in Hin. apply in_map_iff in Hin as (x & <- & Hx).
  unfold chart_sound in Hc. rewrite Forall_forall in Hc. apply (Hc _ Hx).
Qed.

Lemma opt_symbol_eqb_eq a b : Chart.opt_symbol_eqb a b = true -> a = Some b.
Proof.
  destruct a as [s |]; simpl; [| discriminate].
  intro H. apply symbol_eqb_eq in H. now subst.
Qed.

Lemma SingleEdgeFundamentalRule_sound c edge :
  chart_sound c -> span_ok edge ->
  yield_sound (Chart.SingleEdgeFundamentalRule c edge).
Proof.
  intros Hc He. unfold Chart.SingleEdgeFundamentalRule.
  destruct (Chart.is_incomplete edge) eqn:Hinc.
  - apply fold_left_inv; [now apply yield_sound_start |].
    intros st r Hr Hst. destruct (select_sound _ _ _ Hc Hr) as [Hrok Hrestr].
    apply andb_prop in Hrestr as [Hrestr Hsym].
    apply andb_prop in Hrestr as [Hpos Hcomp].
    apply Nat.eqb_eq in Hpos. apply opt_symbol_eqb_eq in Hsym.
    now apply backpointer_sound.
  - apply fold_left_inv; [now apply yield_sound_start |].
    intros st l Hl Hst. destruct (select_sound _ _ _ Hc Hl) as [Hlok Hrestr].
    apply andb_prop in Hrestr as [Hrestr Hsym].
    apply andb_prop in Hrestr as [Hpos Hlinc].
    apply Nat.eqb_eq in Hpos. apply opt_symbol_eqb_eq in Hsym.
    apply backpointer_sound; auto.
    unfold Chart.is_incomplete in Hinc. now destruct (Chart.is_complete edge).
Qed.

Lemma agenda_step_sound g st :
  yield_sound st ->
  match Chart.agenda_step g st with
  | inl st' => yield_sound st'
  | inr c => chart_sound c
  end.
Proof.
  destruct st as [c agenda]. intros [Hc Ha]. simpl in Hc, Ha.
  unfold Chart.agenda_step.
  destruct (rev agenda) as [| edge below] eqn:Hrev; [exact Hc |].
  assert (Hagenda : agenda = rev below ++ [edge]).
  { rewrite <- (rev_involutive agenda), Hrev. reflexivity. }
  subst agenda. apply Forall_app in Ha as [Hbelow Hedge].
  inversion Hedge as [| ? ? He _]; subst.
  pose proof (BottomUpPredictCombineRule_sound g c edge Hc He) as H1.
  destruct (Chart.BottomUpPredictCombineRule g c edge) as [c1 new1].
  destruct H1 as [Hc1 Hy1]. simpl in Hc1, Hy1.
  pose proof (SingleEdgeFundamentalRule_sound c1 edge Hc1 He) as H2.
  destruct (Chart.SingleEdgeFundamentalRule c1 edge) as [c2 new2].
  destruct H2 as [Hc2 Hy2]. simpl in Hc2, Hy2.
  split; simpl; [exact Hc2 |].
  apply Forall_app. split; [exact Hbelow |].
  apply Forall_app. split; assumption.
Qed.

Lemma rounds_sound g : forall k st c,
  yield_sound st -> rounds g k st = inr c -> chart_sound c.
Proof.
  induction k as [| k IH]; intros st c Hst H; simpl in H; [discriminate |].
  pose proof (agenda_step_sound g st Hst) as Hstep.
  destruct (Chart.agenda_step g st) as [st' | c'].
  - eapply IH; eauto.
  - now injection H as <-.
Qed.

Lemma rounds_ok g toks : forall k st c,
  Invariant.state_ok g toks st -> rounds g k st = inr c ->
  Invariant.chart_ok g toks c.
Proof.
  induction k as [| k IH]; intros st c Hst H; simpl in H; [discriminate |].
  pose proof (agenda_step_decreases g toks st Hst) as Hstep.
  destruct (Chart.agenda_step g st) as [st' | c'].
  - eapply IH; [apply Hstep | exact H].
  - now injection H as <-.
Qed.

(** The chart that [chart_parse] returns meets both invariants. *)
Lemma chart_parse_sound g toks c :
  Chart.chart_parse g toks = Return c ->
  Invariant.chart_ok g toks c /\ chart_sound c.
Proof.
  unfold Chart.chart_parse.
  destruct (Grammar.check_coverage g toks); simpl; try discriminate.
  pose proof (LeafInitRule_ok g toks _ (empty_chart_ok g toks)) as (H1 & _).
  pose proof (EmptyPredictRule_ok g toks _ H1) as (H2 & _).
  assert (S0 : chart_sound (Chart.empty_chart toks)) by constructor.
  pose proof (LeafInitRule_sound _ S0) as [S1 _].
  pose proof (EmptyPredictRule_sound g _ S1) as [S2 _].
  set (c2 := fst (Chart.EmptyPredictRule g
                    (fst (Chart.LeafInitRule (Chart.empty_chart toks))))) in *.
  rewrite agenda_loop_rounds.
  destruct (rounds g _ (c2, rev (Chart.edges c2))) as [st | c'] eqn:E;
    [discriminate |].
  intros [= <-]. split.
  - eapply rounds_ok; [| exact E]. split; [exact H2 |]. simpl.
    apply Forall_rev. now apply edges_ok.
  - eapply rounds_sound; [| exact E]. split; [exact S2 |]. simpl.
    apply Forall_rev. unfold Chart.edges.
    apply Forall_forall. intros e He. apply in_map_iff in He as (x & <- & Hx).
    unfold chart_sound in S2. rewrite Forall_forall in S2. apply (S2 _ Hx).
Qed.

Lemma slice_leaf toks i tok :
  nth_error toks i = Some tok -> slice toks i (S i) = [tok].
Proof.
  unfold slice. replace (S i - i) with 1 by lia.
  revert i. induction toks as [| x toks IH]; intros [| i] H; simpl in *;
    try discriminate.
  - now injection H as <-.
  - now apply IH.
Qed.

Lemma firstn_add {A : Type} (l : list A) : forall a b,
  firstn (a + b) l = firstn a l ++ firstn b (skipn a l).
Proof.
  induction l as [| x l IH]; intros [| a] b; simpl; try reflexivity.
  - now rewrite firstn_nil.
  - now rewrite IH.
Qed.

Lemma skipn_add {A : Type} (l : list A) : forall a b,
  skipn a (skipn b l) = skipn (b + a) l.
Proof.
  induction l as [| x l IH]; intros a [| b]; simpl; try reflexivity.
  - now destruct a.
  - apply IH.
Qed.

Lemma slice_app toks s m e :
  s <= m -> m <= e -> slice toks s m ++ slice toks m e = slice toks s e.
Proof.
  intros H1 H2. unfold slice.
  replace (e - s) with ((m - s) + (e - m)) by lia.
  rewrite firstn_add, skipn_add. repeat f_equal. lia.
Qed.

Lemma in_product {A : Type} (choices : list (list A)) : forall children,
  In children (Chart.product choices) ->
  Forall2 (fun choice t => In t choice) choices children.
Proof.
  induction choices as [| c choices IH]; intros children H; simpl in H.
  - destruct H as [<- | []]. constructor.
  - apply in_flat_map in H as (x & Hx & H).
    apply in_map_iff in H as (rest & <- & Hrest).
    constructor; [exact Hx | now apply IH].
Qed.

Lemma foldM_returns {A S : Type} (Q : S -> Prop) (f : S -> A -> outcome S) l :
  (forall s a s', In a l -> Q s -> f s a = Return s' -> Q s') ->
  forall s s', Q s -> foldM f l s = Return s' -> Q s'.
Proof.
  induction l as [| a l IH]; intros Hf s s' Hs H; simpl in H.
  - now injection H as <-.
  - destruct (f s a) as [s1 | e |] eqn:E; simpl in H; try discriminate.
    apply (IH (fun s a s' Hin => Hf s a s' (or_intror Hin)) s1 s');
      [| exact H].
    apply (Hf s a s1); [now left | exact Hs | exact E].
Qed.

(** A fold that adds one result per element keeps the results in step
    with the elements. *)
Lemma foldM_collects {A B S : Type} (P : A -> B -> Prop) (Q : S -> Prop)
    (R : A -> Prop) (f : list B * S -> A -> outcome (list B * S)) :
  (forall acc a r, Q (snd acc) -> R a -> f acc a = Return r ->
     exists b, fst r = fst acc ++ [b] /\ P a b /\ Q (snd r)) ->
  forall l done acc r,
    Forall R l -> Forall2 P done (fst acc) -> Q (snd acc) ->
    foldM f l acc = Return r ->
    Forall2 P (done ++ l) (fst r) /\ Q (snd r).
Proof.
  intros Hf. induction l as [| a l IH]; intros done acc r HR Hdone HQ H;
    simpl in H.
  - injection H as <-. rewrite app_nil_r. auto.
  - inversion HR as [| ? ? Ha HR']; subst.
    destruct (f acc a) as [acc1 | e |] eqn:E; simpl in H; try discriminate.
    destruct (Hf acc a acc1 HQ Ha E) as (b & Hb & HP & HQ1).
    replace (done ++ a :: l) with ((done ++ [a]) ++ l)
      by (rewrite <- app_assoc; reflexivity).
    apply (IH (done ++ [a]) acc1 r HR'); [| exact HQ1 | exact H].
    rewrite Hb. apply Forall2_app; [exact Hdone | constructor; [exact HP | constructor]].
Qed.

Lemma memo_sound_cons g toks e ts memo :
  Forall (tree_for g toks e) ts -> memo_sound g toks memo ->
  memo_sound g toks ((e, ts) :: memo).
Proof.
  intros Hts Hmemo e' ts' H. simpl in H.
  destruct (Chart.Edge_eq_dec e' e) as [-> | _].
  - now injection H as <-.
  - now apply Hmemo.
Qed.

Section TreesSound.

Variable g : CFG.
Variable toks : list pystr.
Variable c : Chart.Chart.
Hypothesis Hok : Invariant.chart_ok g toks c.
Hypothesis Hsound : chart_sound c.

Lemma chain_leaves l : forall children s e,
  chain s l e -> Forall2 (tree_for g toks) l children ->
  flat_map leaves children = slice toks s e.
Proof.
  induction l as [| x l IH]; intros children s e Hchain H;
    inversion H as [| ? t ? ts Ht Hts]; subst; simpl in *.
  - subst. unfold slice. now rewrite Nat.sub_diag.
  - destruct Hchain as (<- & Hspan & Hchain).
    destruct Ht as (_ & _ & ->). rewrite (IH ts _ _ Hchain Hts).
    apply slice_app; [exact Hspan | now apply chain_span in Hchain].
Qed.

(** A node over sound children of a complete edge is a tree for it. *)
Lemma node_for_edge s e' l r d cpl_ children :
  Invariant.edge_ok g toks (Chart.TreeEdge s e' l r d) ->
  Chart.is_incomplete (Chart.TreeEdge s e' l r d) = false ->
  cpl_sound (Chart.TreeEdge s e' l r d) cpl_ ->
  Forall2 (tree_for g toks) cpl_ children ->
  tree_for g toks (Chart.TreeEdge s e' l r d) (Node l children).
Proof.
  intros (_ & _ & Hprod & _) Hinc (Hchain & _ & Hsyms) Hchildren.
  assert (Hd : d = length r).
  { unfold Chart.is_incomplete in Hinc. simpl in Hinc.
    destruct (Nat.eqb_spec d (length r)); [assumption | discriminate]. }
  subst d. rewrite firstn_all in Hsyms.
  assert (Hroots : map root_symbol children = r).
  { rewrite <- Hsyms. clear -Hchildren.
    induction Hchildren as [| x t cpl_ ts Ht _ IH]; simpl; [reflexivity |].
    destruct Ht as (-> & _). now rewrite IH. }
  split; [reflexivity | split].
  - simpl. rewrite Hroots.
    destruct (in_dec Production_eq_dec (mkProduction l r) (productions g));
      [| contradiction].
    simpl. apply forallb_forall. intros t Ht.
    clear -Hchildren Ht.
    induction Hchildren as [| x t' cpl_ ts Ht' _ IH]; [destruct Ht |].
    destruct Ht as [<- | Ht]; [apply Ht' | now apply IH].
  - simpl. now apply (chain_leaves cpl_).
Qed.

Lemma _trees_sound : forall fuel edge memo r,
  Invariant.edge_ok g toks edge -> memo_sound g toks memo ->
  Chart._trees fuel c edge memo = Return r ->
  Forall (tree_for g toks edge) (fst r) /\ memo_sound g toks (snd r).
Proof.
  induction fuel as [| fuel IH]; intros edge memo r0 Hedge Hmemo H;
    [discriminate |].
  cbn [Chart._trees] in H.
  destruct (Chart.lookup edge memo) as [ts |] eqn:Hlook.
  { injection H as <-. split; [now apply (Hmemo edge) | exact Hmemo]. }
  destruct (Chart.is_incomplete edge) eqn:Hinc.
  { injection H as <-. split; [constructor | exact Hmemo]. }
  destruct edge as [s e' l rh d | leaf i].
  - set (edge := Chart.TreeEdge s e' l rh d) in *.
    match type of H with
    | context [foldM ?f ?cpls ?start] =>
        destruct (foldM f cpls start) as [r | e |] eqn:E;
          simpl in H; try discriminate;
        pose proof (foldM_returns
                      (fun acc : list Tree * Chart.Memo =>
                         Forall (tree_for g toks edge) (fst acc)
                         /\ memo_sound g toks (snd acc)) f cpls) as Houter
    end.
    injection H as <-. simpl.
    assert (Hr : Forall (tree_for g toks edge) (fst r)
                 /\ memo_sound g toks (snd r)).
    { eapply Houter; [| | exact E].
      - intros acc cpl_ acc' Hin [Hacc Hm] Hstep. cbv beta in Hstep.
        match type of Hstep with
        | context [foldM ?f ?l ?start] =>
            destruct (foldM f l start) as [r' | e |] eqn:E';
              simpl in Hstep; try discriminate;
            pose proof (foldM_collects
                          (fun cp ts => Forall (tree_for g toks cp) ts)
                          (memo_sound g toks) (Invariant.edge_ok g toks) f)
              as Hinner
        end.
        injection Hstep as <-. simpl.
        destruct (child_pointer_lists_ok g toks c edge Hok) as [_ Hcpls].
        pose proof (child_pointer_lists_sound c edge Hsound) as Hcs.
        rewrite Forall_forall in Hcpls, Hcs.
        destruct (Hcpls _ Hin) as [_ Hcpl_ok].
        destruct (Hinner) with (l := cpl_) (done := @nil Chart.Edge)
                               (acc := (@nil (list Tree), snd acc)) (r := r')
          as [Hchoices Hm']; auto.
        + intros acc0 cp r1 HQ HR Hcall. cbv beta in Hcall.
          destruct (Chart._trees fuel c cp (snd acc0)) as [r2 | e |] eqn:E2;
            simpl in Hcall; try discriminate.
          injection Hcall as <-. simpl.
          destruct (IH cp (snd acc0) r2 HR HQ E2) as [Hts Hm2].
          exists (fst r2). split; [reflexivity | split; assumption].
        + simpl in Hchoices. split; [| exact Hm'].
          apply Forall_app. split; [exact Hacc |].
          apply Forall_forall. intros t Ht.
          apply in_map_iff in Ht as (children & <- & Hch).
          apply in_product in Hch.
          apply (node_for_edge s e' l rh d cpl_ children Hedge Hinc (Hcs _ Hin)).
          clear -Hchoices Hch. revert children Hch.
          induction Hchoices as [| cp ts cpl_ choices Hts _ IHc];
            intros children Hch; inversion Hch; subst; constructor.
          * rewrite Forall_forall in Hts. now apply Hts.
          * now apply IHc.
      - split; [constructor |]. apply memo_sound_cons; [constructor | exact Hmemo]. }
    destruct Hr as [Hts Hm]. split; [exact Hts |].
    now apply memo_sound_cons.
  - cbn [Chart.edge_start] in H.
    destruct (nth_error (Chart.tokens c) i) as [tok |] eqn:E; [| discriminate].
    injection H as <-. simpl.
    destruct Hok as (Htok & _). rewrite Htok in E.
    destruct Hedge as [Hi ->].
    assert (Ht : tree_for g toks (Chart.LeafEdge (nth i toks []) i) (Leaf tok)).
    { split; [| split].
      - simpl. f_equal. symmetry. now apply nth_error_nth.
      - reflexivity.
      - simpl. symmetry. now apply slice_leaf. }
    split; [constructor; [exact Ht | constructor] |].
    apply memo_sound_cons; [constructor; [exact Ht | constructor] | exact Hmemo].
Qed.

End TreesSound.

Lemma trees_sound g toks c edge ts :
  Invariant.chart_ok g toks c -> chart_sound c ->
  Invariant.edge_ok g toks edge ->
  Chart.trees c edge = Return ts -> Forall (tree_for g toks edge) ts.
Proof.
  intros Hok Hs He H. unfold Chart.trees in H.
  destruct (Chart._trees (S (length (Chart.edges c))) c edge []) as [r | e |] eqn:E;
    simpl in H; try discriminate.
  injection H as <-.
  assert (Hm : memo_sound g toks []) by (intros e ts H; discriminate H).
  exact (proj1 (_trees_sound g toks c Hok Hs (S (length (Chart.edges c)))
                  edge [] r He Hm E)).
Qed.

Lemma parses_from_sound g toks c (P : Tree -> Prop) : forall roots,
  Invariant.chart_ok g toks c -> chart_sound c ->
  (forall e t, In e roots -> Invariant.edge_ok g toks e ->
               tree_for g toks e t -> P t) ->
  Forall (Invariant.edge_ok g toks) roots ->
  Forall P (items (Chart.parses_from c roots)).
Proof.
  intros roots Hok Hs. induction roots as [| e roots IH]; intros HP Hroots;
    simpl; [constructor |].
  inversion Hroots as [| ? ? He Hrest]; subst.
  destruct (Chart.trees c e) as [ts | x |] eqn:E; simpl; try constructor.
  apply Forall_app. split.
  - pose proof (trees_sound g toks c e ts Hok Hs He E) as Hts.
    eapply Forall_impl; [| exact Hts]. intros t Ht.
    apply (HP e t); [now left | exact He | exact Ht].
  - apply IH; [| exact Hrest]. intros e' t Hin. apply HP. now right.
Qed.

(** Every tree that the chart parser yields is a derivation tree of the
    grammar, rooted at the start symbol, whose leaves are the tokens. *)
Lemma ChartParser_sound g toks it :
  parser_parse (ChartParser g) toks = Return it ->
  Forall (fun t => derivation g t = true
                   /\ root_symbol t = Nonterminal (start g)
                   /\ leaves t = toks) (items it).
Proof.
  simpl. destruct (Chart.chart_parse g toks) as [c | e |] eqn:E; simpl;
    try discriminate.
  intros [= <-]. destruct (chart_parse_sound g toks c E) as [Hok Hs].
  unfold Chart.parses.
  apply (parses_from_sound g toks c); auto.
  - intros e t Hin _ (Hroot & Hder & Hleaves).
    apply filter_In in Hin as [_ Hrestr].
    apply andb_prop in Hrestr as [Hrestr Hsym].
    apply andb_prop in Hrestr as [Hs0 He0].
    apply Nat.eqb_eq in Hs0, He0. apply symbol_eqb_eq in Hsym.
    split; [exact Hder | split; [congruence |]].
    rewrite Hleaves, Hs0, He0. unfold slice, Chart.num_leaves.
    destruct Hok as (-> & _). rewrite Nat.sub_0_r. simpl. apply firstn_all.
  - apply Forall_forall. intros e He.
    apply filter_In in He as [He _].
    pose proof (edges_ok g toks c Hok) as H. rewrite Forall_forall in H.
    now apply H.
Qed.

Lemma parse_sound self text trees :
  parser self = ChartParser (grammar self) ->
  parse self text = Return trees ->
  Forall (parse_tree_of self text) trees.
Proof.
  intros Hp H. unfold parse in H. rewrite Hp in H.
  destruct (parser_parse (ChartParser (grammar self)) (tokenize self text))
    as [it | e |] eqn:E; simpl in H;
    [| injection H as <-; constructor | discriminate H].
  unfold list_ in H. destruct (fin it); simpl in H;
    [| injection H as <-; constructor | discriminate H].
  injection H as <-. unfold parse_tree_of.
  apply (ChartParser_sound _ _ _ E).
Qed.

(** X10: every tree that [parse] returns, for a parser object whose
    parser is the chart parser of its grammar, is a derivation tree of
    that grammar, rooted at the start symbol, whose leaves are exactly
    the tokens of the text, in order.  The objects that the constructor
    builds are of that kind. *)
Theorem parse_trees_are_derivations :
  (forall self text trees,
     parser self = ChartParser (grammar self) ->
     parse self text = Return trees ->
     Forall (parse_tree_of self text) trees)
  /\ (forall debug_ text trees,
        parse (musical_parser debug_) text = Return trees ->
        Forall (parse_tree_of (musical_parser debug_) text) trees).
Proof.
  split; [exact parse_sound |].
  intros debug_ text trees. apply parse_sound. reflexivity.
Qed.

Lemma parse_trees_are_derivations_witness :
  parse (musical_parser false) (Py.lit "C quarter")
  = Return [nd "S" [nd "Composition" [nd "PhraseList"
      [ nd "Phrase" [nd "NoteSequence"
          [note "C" "quarter"; nd "NoteSequence_Prime" []]];
        nd "PhraseList_Prime" [] ]]]]
  /\ Forall (parse_tree_of (musical_parser false) (Py.lit "C quarter"))
       [nd "S" [nd "Composition" [nd "PhraseList"
          [ nd "Phrase" [nd "NoteSequence"
              [note "C" "quarter"; nd "NoteSequence_Prime" []]];
            nd "PhraseList_Prime" [] ]]]].
Proof.
  assert (H : parse (musical_parser false) (Py.lit "C quarter")
              = Return [nd "S" [nd "Composition" [nd "PhraseList"
                  [ nd "Phrase" [nd "NoteSequence"
                      [note "C" "quarter"; nd "NoteSequence_Prime" []]];
                    nd "PhraseList_Prime" [] ]]]])
    by (vm_compute; reflexivity).
  split; [exact H |].
  apply (proj1 parse_trees_are_derivations (musical_parser false)
           (Py.lit "C quarter") _ eq_refl H).
Defined.

(* ================================================================== *)
(** * What the methods print *)
(* ================================================================== *)

Lemma str_eqb_neq a b : Py.str_eqb a b = false <-> a <> b.
Proof.
  unfold Py.str_eqb. destruct (list_eq_dec N.eq_dec a b); split; congruence.
Qed.

Lemma parse_outcome self text :
  (exists trees, parse self text = Return trees) \/ parse self text = Diverge.
Proof.
  unfold parse.
  destruct (parser_parse (parser self) (tokenize self text)) as [it | e |];
    simpl; eauto.
  unfold list_. destruct (fin it); simpl; eauto.
Qed.

Section ConsoleFacts.

Variable repr_tokens : list pystr -> pystr.
Variable str_of_exception : Exception -> pystr.
Variable pretty : Tree -> pystr.
Variable lower : pystr -> pystr.

Local Abbreviation parse_io := (Console.parse_io repr_tokens str_of_exception).
Local Abbreviation is_valid_io :=
  (Console.is_valid_io repr_tokens str_of_exception).
Local Abbreviation print_parse_tree :=
  (Console.print_parse_tree repr_tokens str_of_exception pretty).
Local Abbreviation interactive_loop :=
  (Console.interactive_loop repr_tokens str_of_exception pretty lower).

Lemma parse_io_result self text :
  fst (parse_io self text) = Console.ended_of (parse self text).
Proof.
  unfold Console.parse_io, Console.tokenize_io, parse, Console.print_if.
  destruct (debug self); simpl;
    destruct (parser_parse (parser self) (tokenize self text)) as [it | e |];
    simpl; try reflexivity;
    unfold list_; destruct (fin it); simpl; try reflexivity;
    destruct (items it); reflexivity.
Qed.

Lemma parse_io_silent self text :
  debug self = false -> snd (parse_io self text) = [].
Proof.
  intro Hd.
  unfold Console.parse_io, Console.tokenize_io, Console.print_if.
  rewrite Hd. simpl.
  destruct (parser_parse (parser self) (tokenize self text)) as [it | e |];
    simpl; try reflexivity.
  unfold list_. destruct (fin it); reflexivity.
Qed.


Lemma is_valid_io_result self text :
  fst (is_valid_io self text) = Console.ended_of (is_valid self text)
  /\ snd (is_valid_io self text) = snd (parse_io self text).
Proof.
  unfold Console.is_valid_io, is_valid.
  pose proof (parse_io_result self text) as H.
  destruct (parse_io self text) as [[trees | f |] out]; simpl in *;
    destruct (parse self text) as [trees' | e |]; simpl in *;
    try discriminate H; try (injection H as <-); split; try reflexivity;
    try congruence.
  now rewrite app_nil_r.
Qed.

(** [parse] and [is_valid] are never cut short by a failure. *)
Lemma parse_io_never_fails self text f :
  fst (parse_io self text) <> Console.Failed f.
Proof.
  rewrite parse_io_result.
  destruct (parse_outcome self text) as [[trees ->] | ->]; discriminate.
Qed.

Lemma is_valid_io_never_fails self text f :
  fst (is_valid_io self text) <> Console.Failed f.
Proof.
  unfold Console.is_valid_io.
  pose proof (parse_io_never_fails self text) as H.
  destruct (parse_io self text) as [[trees | f' |] out]; simpl in *;
    try discriminate.
  exfalso. now apply (H f').
Qed.

Lemma print_trees_nodes : forall trees i,
  forallb is_node trees = true ->
  Console.print_trees pretty i trees
  = (Console.Done tt,
     flat_map (fun it => [Console.Print (Console.heading (S (fst it)));
                          Console.Print (pretty (snd it))])
              (combine (seq i (length trees)) trees)).
Proof.
  induction trees as [| t trees IH]; intros i H; [reflexivity |].
  simpl in H. apply andb_prop in H as [Ht H].
  destruct t as [l cs |]; [| discriminate].
  cbn [Console.print_trees]. rewrite (IH (S i) H).
  rewrite Nat.add_1_r. reflexivity.
Qed.

Lemma print_trees_failure : forall trees i f,
  fst (Console.print_trees pretty i trees) = Console.Failed f ->
  f = Console.AttributeError.
Proof.
  induction trees as [| t trees IH]; intros i f H; [discriminate |].
  cbn [Console.print_trees] in H.
  destruct t as [l cs |]; simpl in H.
  - destruct (Console.print_trees pretty (S i) trees) as [[u | f' |] out] eqn:E;
      simpl in H; try discriminate.
    injection H as <-. apply (IH (S i)). now rewrite E.
  - now injection H as <-.
Qed.

Lemma print_parse_tree_failure self text f :
  fst (print_parse_tree self text) = Console.Failed f ->
  f = Console.AttributeError.
Proof.
  unfold Console.print_parse_tree. intro H.
  pose proof (parse_io_never_fails self text) as Hr.
  destruct (parse_io self text) as [[trees | f' |] out]; simpl in *.
  - destruct trees as [| t trees]; [discriminate |].
    destruct (Console.print_trees pretty 0 (t :: trees)) as [[u | f' |] out']
      eqn:E; simpl in H; try discriminate.
    injection H as <-. apply (print_trees_failure (t :: trees) 0).
    now rewrite E.
  - exfalso. now apply (Hr f').
  - discriminate.
Qed.

Lemma print_parse_tree_nodes self text trees :
  parse self text = Return trees -> forallb is_node trees = true ->
  print_parse_tree self text
  = (Console.Done tt,
     snd (parse_io self text)
     ++ match trees with
        | [] => [Console.Print Console.no_trees_message]
        | _ :: _ => drawings pretty trees
        end).
Proof.
  intros Hp Hn. unfold Console.print_parse_tree.
  pose proof (parse_io_result self text) as Hr. rewrite Hp in Hr.
  destruct (parse_io self text) as [[trees' | f' |] out]; simpl in *;
    try discriminate Hr.
  injection Hr as ->.
  destruct trees as [| t trees]; [reflexivity |].
  rewrite (print_trees_nodes _ 0 Hn). reflexivity.
Qed.

(** How a session ends, with the lines it leaves unread. *)
Lemma interactive_loop_ends self : forall n lines,
  length lines <= n ->
  (exists consumed, lines = consumed ++ snd (interactive_loop self lines))
  /\ (fst (fst (interactive_loop self lines)) = Console.Done tt ->
      exists before q out,
        lines = before ++ q :: snd (interactive_loop self lines)
        /\ quits lower q
        /\ snd (fst (interactive_loop self lines)) = out ++ [Console.exiting])
  /\ (fst (fst (interactive_loop self lines)) = Console.Failed Console.EOFError ->
      snd (interactive_loop self lines) = []).
Proof.
  induction n as [| n IH]; intros [| line rest] Hlen; simpl in Hlen; try lia;
    try (split; [exists []; reflexivity | split; [discriminate | reflexivity]]).
  assert (Hrest : forall out, 
            (exists consumed, line :: rest = consumed
               ++ snd (Console.after out (interactive_loop self rest)))
            /\ (fst (fst (Console.after out (interactive_loop self rest)))
                = Console.Done tt ->
                exists before q out',
                  line :: rest
                  = before ++ q :: snd (Console.after out (interactive_loop self rest))
                  /\ quits lower q
                  /\ snd (fst (Console.after out (interactive_loop self rest)))
                     = out' ++ [Console.exiting])
            /\ (fst (fst (Console.after out (interactive_loop self rest)))
                = Console.Failed Console.EOFError ->
                snd (Console.after out (interactive_loop self rest)) = [])).
  { intro out. destruct (IH rest ltac:(lia)) as ((consumed & Hc) & Hd & He).
    unfold Console.after. simpl. split; [| split].
    - exists (line :: consumed). simpl. now rewrite <- Hc.
    - intro H. destruct (Hd H) as (before & q & out' & H1 & H2 & H3).
      exists (line :: before), q, (out ++ out'). simpl.
      rewrite <- H1, H3, app_assoc. auto.
    - exact He. }
  cbn [Console.interactive_loop].
  destruct (Py.str_eqb (lower (Py.strip line)) (Py.lit "q")) eqn:Hq.
  { simpl. split; [exists [line]; reflexivity | split; [| discriminate]].
    intros _. exists [], line, [Console.enter_prompt].
    split; [reflexivity | split; [| reflexivity]].
    now apply str_eqb_eq. }
  destruct (negb (Py.truthy (Py.strip line))); [apply Hrest |].
  pose proof (is_valid_io_never_fails self (Py.strip line)) as Hnf.
  destruct (is_valid_io self (Py.strip line)) as [[[|] | f |] out]; simpl in Hnf.
  - destruct rest as [| answer rest'].
    + simpl. split; [exists [line]; reflexivity | split; [discriminate | reflexivity]].
    + set (shown := if Py.str_eqb (lower (Py.strip answer)) (Py.lit "y")
                    then print_parse_tree self (Py.strip line)
                    else Console.ret tt).
      assert (Hshown : forall f, fst shown = Console.Failed f ->
                                 f = Console.AttributeError).
      { intros f. unfold shown.
        destruct (Py.str_eqb (lower (Py.strip answer)) (Py.lit "y"));
          [apply print_parse_tree_failure | discriminate]. }
      destruct shown as [[u | f |] out'].
      * destruct (IH rest' ltac:(simpl in Hlen; lia)) as ((consumed & Hc) & Hd & He).
        unfold Console.after. simpl. split; [| split].
        -- exists (line :: answer :: consumed). simpl. now rewrite <- Hc.
        -- intro H. destruct (Hd H) as (before & q & out'' & H1 & H2 & H3).
           exists (line :: answer :: before), q. eexists. simpl.
           rewrite <- H1, H3. split; [reflexivity | split; [exact H2 |]].
           rewrite !app_comm_cons, !app_assoc. reflexivity.
        -- exact He.
      * simpl. split; [exists [line; answer]; reflexivity |].
        split; [discriminate |]. intro H. injection H as H.
        specialize (Hshown f eq_refl). congruence.
      * simpl. split; [exists [line; answer]; reflexivity |].
        split; discriminate.
  - apply Hrest.
  - exfalso. now apply (Hnf f).
  - simpl. split; [exists [line]; reflexivity | split; discriminate].
Qed.

End ConsoleFacts.

Section ConsoleSessions.

Variable repr_tokens : list pystr -> pystr.
Variable str_of_exception : Exception -> pystr.
Variable pretty : Tree -> pystr.
Variable lower : pystr -> pystr.

Local Abbreviation parse_io := (Console.parse_io repr_tokens str_of_exception).
Local Abbreviation is_valid_io :=
  (Console.is_valid_io repr_tokens str_of_exception).
Local Abbreviation print_parse_tree :=
  (Console.print_parse_tree repr_tokens str_of_exception pretty).
Local Abbreviation interactive_loop :=
  (Console.interactive_loop repr_tokens str_of_exception pretty lower).

Lemma is_valid_io_of self text b :
  is_valid self text = Return b ->
  is_valid_io self text = (Console.Done b, snd (parse_io self text)).
Proof.
  intro H.
  destruct (is_valid_io_result repr_tokens str_of_exception self text)
    as [H1 H2].
  rewrite H in H1. simpl in H1.
  destruct (is_valid_io self text) as [r out]. simpl in *. congruence.
Qed.

Lemma interactive_loop_prompts self lines :
  exists out,
    snd (fst (interactive_loop self lines)) = Console.enter_prompt :: out.
Proof.
  destruct lines as [| line rest]; [eexists; reflexivity |].
  cbn [Console.interactive_loop].
  destruct (Py.str_eqb (lower (Py.strip line)) (Py.lit "q"));
    [eexists; reflexivity |].
  destruct (negb (Py.truthy (Py.strip line))); [eexists; reflexivity |].
  destruct (is_valid_io self (Py.strip line)) as [[[|] | f |] out];
    try (eexists; reflexivity).
  destruct rest as [| answer rest']; [eexists; reflexivity |].
  destruct (if Py.str_eqb (lower (Py.strip answer)) (Py.lit "y")
            then print_parse_tree self (Py.strip line)
            else Console.ret tt) as [[u | f |] out']; eexists; reflexivity.
Qed.

Lemma quit_line_needed self lines :
  (forall l, In l lines -> ~ quits lower l) ->
  fst (fst (interactive_loop self lines)) <> Console.Done tt.
Proof.
  intros Hno H.
  destruct (interactive_loop_ends repr_tokens str_of_exception pretty lower
              self (length lines) lines (le_n _)) as (_ & Hd & _).
  destruct (Hd H) as (before & q & out & Hl & Hq & _).
  apply (Hno q); [| exact Hq]. rewrite Hl. apply in_or_app. right. now left.
Qed.

(** With the chart parser of its grammar, a session is cut short by the
    end of the input only. *)
Lemma interactive_loop_safe self :
  parser self = ChartParser (grammar self) ->
  forall n lines, length lines <= n ->
    fst (fst (interactive_loop self lines)) = Console.Done tt
    \/ fst (fst (interactive_loop self lines)) = Console.Failed Console.EOFError.
Proof.
  intro Hp. induction n as [| n IH]; intros [| line rest] Hlen;
    simpl in Hlen; try lia; try (now right).
  cbn [Console.interactive_loop].
  destruct (Py.str_eqb (lower (Py.strip line)) (Py.lit "q")); [now left |].
  destruct (negb (Py.truthy (Py.strip line)));
    [apply (IH rest); lia |].
  destruct (parse_returns self (Py.strip line) (grammar self) Hp)
    as [trees Htrees].
  assert (Hv : is_valid self (Py.strip line) = Return (0 <? length trees))
    by (unfold is_valid; now rewrite Htrees).
  rewrite (is_valid_io_of _ _ _ Hv).
  destruct (0 <? length trees); [| apply (IH rest); lia].
  destruct rest as [| answer rest']; [now right |].
  assert (Hnodes : forallb is_node trees = true).
  { apply forallb_forall. intros t Ht.
    pose proof (parse_sound self (Py.strip line) trees Hp Htrees) as Hs.
    rewrite Forall_forall in Hs. destruct (Hs t Ht) as (_ & Hroot & _).
    destruct t; [reflexivity | discriminate]. }
  destruct (Py.str_eqb (lower (Py.strip answer)) (Py.lit "y")).
  - rewrite (print_parse_tree_nodes repr_tokens str_of_exception pretty
               self (Py.strip line) trees Htrees Hnodes).
    apply (IH rest'). simpl in Hlen. lia.
  - apply (IH rest'). simpl in Hlen. lia.
Qed.

End ConsoleSessions.



(** X12: [print_parse_tree] prints what [parse] prints and then, when
    [parse] returns no tree, the one line "No valid parse trees found.";
    when it returns trees, for the k-th tree (counting from 1, in the
    order of [parse]) the heading "Parse Tree k:" and its drawing, and
    nothing else. *)
Theorem print_parse_tree_prints :
  forall repr_tokens str_of_exception pretty self text trees,
    parse self text = Return trees ->
    forallb is_node trees = true ->
    Console.print_parse_tree repr_tokens str_of_exception pretty self text
    = (Console.Done tt,
       snd (Console.parse_io repr_tokens str_of_exception self text)
       ++ match trees with
          | [] => [Console.Print Console.no_trees_message]
          | _ :: _ => drawings pretty trees
          end).
Proof.
  intros. now apply print_parse_tree_nodes.
Qed.

Lemma print_parse_tree_prints_witness :
  parse (musical_parser false) C_quarter_D_half
  = Return [tree_one_phrase; tree_two_phrases]
  /\ Console.print_parse_tree plain_repr no_message no_drawing
       (musical_parser false) C_quarter_D_half
     = (Console.Done tt,
        [ Console.Print (Py.lit "Parse Tree 1:"); Console.Print [];
          Console.Print (Py.lit "Parse Tree 2:"); Console.Print [] ]).
Proof.
  assert (H : parse (musical_parser false) C_quarter_D_half
              = Return [tree_one_phrase; tree_two_phrases])
    by (vm_compute; reflexivity).
  split; [exact H |].
  rewrite (print_parse_tree_prints plain_repr no_message no_drawing
             (musical_parser false) C_quarter_D_half _ H eq_refl).
  rewrite (parse_io_silent plain_repr no_message (musical_parser false)
             C_quarter_D_half eq_refl).
  reflexivity.
Defined.

(** X13: a session of [interactive_mode] prints the banner and then asks
    for a sentence; it reads the lines in order and leaves the others
    unread; it ends normally only at a line that asks to quit (its
    [strip().lower()] is "q"), having printed "Exiting interactive mode."
    last, and reads nothing after that line; when the input ends first,
    no line is left; without a quitting line it never ends normally. *)
Theorem interactive_mode_ends :
  forall repr_tokens str_of_exception pretty lower self lines,
    let run := Console.interactive_mode repr_tokens str_of_exception pretty
                 lower self lines in
    (exists consumed, lines = consumed ++ snd run)
    /\ (exists out,
          snd (fst run) = Console.banner ++ Console.enter_prompt :: out)
    /\ (fst (fst run) = Console.Done tt ->
        exists before q out,
          lines = before ++ q :: snd run
          /\ quits lower q
          /\ snd (fst run) = out ++ [Console.exiting])
    /\ (fst (fst run) = Console.Failed Console.EOFError -> snd run = [])
    /\ ((forall l, In l lines -> ~ quits lower l) ->
        fst (fst run) <> Console.Done tt).
Proof.
  intros repr_tokens str_of_exception pretty lower self lines run.
  unfold run, Console.interactive_mode, Console.after. simpl.
  destruct (interactive_loop_ends repr_tokens str_of_exception pretty lower
              self (length lines) lines (le_n _)) as (Hc & Hd & He).
  split; [exact Hc | split; [| split; [| split]]].
  - destruct (interactive_loop_prompts repr_tokens str_of_exception pretty
                lower self lines) as [out ->].
    exists out. reflexivity.
  - intro H. destruct (Hd H) as (before & q & out & H1 & H2 & H3).
    exists before, q. eexists. split; [exact H1 | split; [exact H2 |]].
    rewrite H3. rewrite app_comm_cons. rewrite !app_comm_cons.
    reflexivity.
  - exact He.
  - apply quit_line_needed.
Qed.

(** X14: with the parser that the constructor builds, a session of
    [interactive_mode] is never cut short by anything but the end of the
    input: on every list of lines it ends normally or with the
    [EOFError] of [input()]. *)
Theorem interactive_mode_never_crashes :
  forall repr_tokens str_of_exception pretty lower debug_ lines,
    let run := Console.interactive_mode repr_tokens str_of_exception pretty
                 lower (musical_parser debug_) lines in
    fst (fst run) = Console.Done tt
    \/ fst (fst run) = Console.Failed Console.EOFError.
Proof.
  intros repr_tokens str_of_exception pretty lower debug_ lines run.
  unfold run, Console.interactive_mode, Console.after. simpl.
  apply (interactive_loop_safe repr_tokens str_of_exception pretty lower
           (musical_parser debug_) eq_refl (length lines) lines (le_n _)).
Qed.

(** X15: how a session goes on after a line that does not ask to quit.
    A blank line only brings the prompt back.  An invalid sentence gets
    its INVALID line and the two hints, and costs one line of input.  A
    valid sentence gets its VALID line and the question "Show parse
    tree?", and costs two lines: the next line is taken as the answer
    whatever it is, so a "q" typed there does not end the session.  An
    answer other than "y" prints nothing; the answer "y" prints what
    [print_parse_tree] prints for the sentence; either way the session
    goes on with the line after the answer. *)
Theorem interactive_loop_line_by_line :
  forall repr_tokens str_of_exception pretty lower self line rest,
    let loop := Console.interactive_loop repr_tokens str_of_exception pretty
                  lower self in
    let printed := snd (Console.parse_io repr_tokens str_of_exception self
                          (Py.strip line)) in
    ~ quits lower line ->
    (Py.strip line = [] ->
     loop (line :: rest) = Console.after [Console.enter_prompt] (loop rest))
    /\ (Py.strip line <> [] ->
        is_valid self (Py.strip line) = Return false ->
        loop (line :: rest)
        = Console.after
            (Console.enter_prompt :: printed
             ++ Console.Print (Console.verdict (Py.strip line) false)
                :: Console.hints)
            (loop rest))
    /\ (Py.strip line <> [] ->
        is_valid self (Py.strip line) = Return true ->
        forall answer rest',
          rest = answer :: rest' ->
          (lower (Py.strip answer) <> Py.lit "y" ->
           loop (line :: rest)
           = Console.after
               (Console.enter_prompt :: printed
                ++ [Console.Print (Console.verdict (Py.strip line) true);
                    Console.show_prompt])
               (loop rest'))
          /\ (lower (Py.strip answer) = Py.lit "y" ->
              forall trees,
                parse self (Py.strip line) = Return trees ->
                forallb is_node trees = true ->
                loop (line :: rest)
                = Console.after
                    (Console.enter_prompt :: printed
                     ++ [Console.Print (Console.verdict (Py.strip line) true);
                         Console.show_prompt]
                     ++ printed ++ drawings pretty trees)
                    (loop rest'))).
Proof.
  intros repr_tokens str_of_exception pretty lower self line rest loop printed
         Hq.
  unfold quits in Hq. apply str_eqb_neq in Hq.
  unfold loop, printed. split; [| split].
  - intro Hblank. cbn [Console.interactive_loop]. rewrite Hq, Hblank.
    reflexivity.
  - intros Hne Hv. cbn [Console.interactive_loop]. rewrite Hq.
    destruct (Py.strip line) as [| c s] eqn:E; [congruence |].
    cbn [Py.truthy negb].
    rewrite (is_valid_io_of repr_tokens str_of_exception self _ _ Hv).
    reflexivity.
  - intros Hne Hv answer rest' ->. split.
    + intro Hy. apply str_eqb_neq in Hy.
      cbn [Console.interactive_loop]. rewrite Hq.
      destruct (Py.strip line) as [| c s] eqn:E; [congruence |].
      cbn [Py.truthy negb].
      rewrite (is_valid_io_of repr_tokens str_of_exception self _ _ Hv).
      rewrite Hy. cbn [Console.ret]. rewrite app_nil_r. reflexivity.
    + intros Hy trees Htrees Hnodes. apply str_eqb_eq in Hy.
      assert (Hsome : trees <> []).
      { intros ->. unfold is_valid in Hv. rewrite Htrees in Hv.
        discriminate Hv. }
      cbn [Console.interactive_loop]. rewrite Hq.
      destruct (Py.strip line) as [| c s] eqn:E; [congruence |].
      cbn [Py.truthy negb].
      rewrite (is_valid_io_of repr_tokens str_of_exception self _ _ Hv).
      rewrite Hy.
      rewrite (print_parse_tree_nodes repr_tokens str_of_exception pretty
                 self _ trees Htrees Hnodes).
      destruct trees as [| t trees]; [congruence |].
      f_equal. cbn [app]. f_equal. now rewrite <- app_assoc.
Qed.

Lemma interactive_loop_line_by_line_witness :
  ~ quits ascii_lower (Py.lit "C quarter")
  /\ quits ascii_lower (Py.lit " Q ")
  /\ Console.interactive_loop plain_repr no_message no_drawing ascii_lower
       (musical_parser false) [Py.lit "C quarter"; Py.lit "q"]
     = Console.after
         [ Console.enter_prompt;
           Console.Print (Console.verdict (Py.lit "C quarter") true);
           Console.show_prompt ]
         (Console.interactive_loop plain_repr no_message no_drawing ascii_lower
            (musical_parser false) [])
  /\ Console.interactive_loop plain_repr no_message no_drawing ascii_lower
       (musical_parser false) [Py.lit "C quarter"; Py.lit " Y"; Py.lit "q"]
     = Console.after
         [ Console.enter_prompt;
           Console.Print (Console.verdict (Py.lit "C quarter") true);
           Console.show_prompt;
           Console.Print (Console.heading 1);
           Console.Print [] ]
         (Console.interactive_loop plain_repr no_message no_drawing ascii_lower
            (musical_parser false) [Py.lit "q"])
  /\ fst (fst (Console.interactive_loop plain_repr no_message no_drawing
                 ascii_lower (musical_parser false)
                 [Py.lit "C quarter"; Py.lit "q"]))
     = Console.Failed Console.EOFError.
Proof.
  assert (Hq : ~ quits ascii_lower (Py.lit "C quarter"))
    by (intro H; vm_compute in H; discriminate H).
  assert (Hne : Py.strip (Py.lit "C quarter") <> [])
    by (vm_compute; discriminate).
  assert (Hv : is_valid (musical_parser false) (Py.strip (Py.lit "C quarter"))
               = Return true)
    by (vm_compute; reflexivity).
  split; [exact Hq | split; [reflexivity | split; [| split]]].
  - refine (proj1 (proj2 (proj2 (interactive_loop_line_by_line plain_repr
                                   no_message no_drawing ascii_lower
                                   (musical_parser false)
                                   (Py.lit "C quarter") [Py.lit "q"] Hq))
                     Hne Hv (Py.lit "q") [] eq_refl) _).
    vm_compute. discriminate.
  - refine (proj2 (proj2 (proj2 (interactive_loop_line_by_line plain_repr
                                   no_message no_drawing ascii_lower
                                   (musical_parser false)
                                   (Py.lit "C quarter")
                                   [Py.lit " Y"; Py.lit "q"] Hq))
                     Hne Hv (Py.lit " Y") [Py.lit "q"] eq_refl)
              _ [nd "S" [nd "Composition" [nd "PhraseList"
                   [ nd "Phrase" [nd "NoteSequence"
                       [note "C" "quarter"; nd "NoteSequence_Prime" []]];
                     nd "PhraseList_Prime" [] ]]]] _ _);
      vm_compute; reflexivity.
  - vm_compute. reflexivity.
Defined.

Lemma interactive_mode_ends_witness :
  (forall l, In l [Py.lit "H quarter"; Py.lit ""] -> ~ quits ascii_lower l)
  /\ fst (fst (Console.interactive_mode plain_repr no_message no_drawing
                 ascii_lower (musical_parser false)
                 [Py.lit "H quarter"; Py.lit ""]))
     <> Console.Done tt
  /\ Console.interactive_mode plain_repr no_message no_drawing ascii_lower
       (musical_parser false) [Py.lit "H quarter"; Py.lit " Q "; Py.lit "left"]
     = ((Console.Done tt,
         Console.banner
         ++ [ Console.enter_prompt;
              Console.Print (Py.lit "'H quarter': INVALID") ]
         ++ Console.hints ++ [Console.enter_prompt; Console.exiting]),
        [Py.lit "left"]).
Proof.
  assert (H : forall l, In l [Py.lit "H quarter"; Py.lit ""] ->
                        ~ quits ascii_lower l).
  { intros l [<- | [<- | []]] Hq; vm_compute in Hq; discriminate Hq. }
  split; [exact H | split].
  - apply (proj2 (proj2 (proj2 (proj2
             (interactive_mode_ends plain_repr no_message no_drawing
                ascii_lower (musical_parser false)
                [Py.lit "H quarter"; Py.lit ""]))))).
    exact H.
  - vm_compute. reflexivity.
Defined.

(* ================================================================== *)
(** * The shape of the valid sentences *)
(* ================================================================== *)

Lemma Tree_ind2 (P : Tree -> Prop) :
  (forall w, P (Leaf w)) ->
  (forall l cs, Forall P cs -> P (Node l cs)) ->
  forall t, P t.
Proof.
  intros HL HN. fix F 1. intros [l cs | w]; [| apply HL].
  apply HN. induction cs as [| c cs IH]; constructor; [apply F | exact IH].
Qed.

Lemma shape_app_optional a b :
  sentence_shape a -> b = [] \/ sentence_shape b -> sentence_shape (a ++ b).
Proof.
  intros (Hlen & (first & rest & -> & Hfirst) & (front & last & Ha & Hlast)) Hb.
  destruct Hb as [-> | (Hlenb & _ & (frontb & lastb & -> & Hlastb))].
  - rewrite app_nil_r. split; [exact Hlen | split; eauto].
  - split; [rewrite length_app; lia | split].
    + exists first, (rest ++ frontb ++ [lastb]). split; [reflexivity | exact Hfirst].
    + exists ((first :: rest) ++ frontb), lastb. split; [| exact Hlastb].
      now rewrite <- app_assoc.
Qed.

Lemma shape_note p d :
  In p pitches -> In d durations -> sentence_shape [p; d].
Proof.
  intros Hp Hd. split; [simpl; lia | split].
  - exists p, [d]. auto.
  - exists [p], d. auto.
Qed.

Lemma shape_chord mid d :
  In d durations -> sentence_shape (Py.lit "(" :: mid ++ [Py.lit ")"; d]).
Proof.
  intro Hd. split; [simpl; rewrite length_app; simpl; lia | split].
  - eexists _, _. split; [reflexivity | now right].
  - exists (Py.lit "(" :: mid ++ [Py.lit ")"]), d. split; [| exact Hd].
    simpl. rewrite <- app_assoc. reflexivity.
Qed.

(** Takes the children of a node apart, given the symbols at their
    roots. *)
Ltac children :=
  repeat match goal with
    | H : map root_symbol ?cs = _ :: _ |- _ =>
        destruct cs as [| ? cs]; [discriminate H |];
        cbn [map] in H; injection H as ? H
    | H : map root_symbol ?cs = [] |- _ =>
        destruct cs; [clear H | discriminate H]
    | H : root_symbol ?c = _ |- _ =>
        destruct c; cbn [root_symbol] in H;
        [injection H as -> | discriminate H]
    | H : root_symbol ?c = _ |- _ =>
        destruct c; cbn [root_symbol] in H;
        [discriminate H | injection H as ->]
    end.

Ltac child_facts :=
  repeat match goal with
    | H : Forall _ (_ :: _) |- _ => inversion H; clear H; subst
    | H : Forall _ [] |- _ => clear H
    end;
  repeat match goal with
    | H : expected_of (Node ?l ?cs) |- _ =>
        let k := eval vm_compute in (kind_of l) in
        change (expected k (leaves (Node l cs))) in H; cbn [expected] in H
    | H : expected_of (Leaf _) |- _ => clear H
    end.

Lemma derivation_shape : forall t,
  derivation musical_grammar t = true -> expected_of t.
Proof.
  induction t as [w | l cs IH] using Tree_ind2; intro Hd; [exact I |].
  cbn [derivation] in Hd. apply andb_prop in Hd as [Hprod Hcs].
  destruct (in_dec Production_eq_dec (mkProduction l (map root_symbol cs))
              (productions musical_grammar)) as [Hin | ]; [| discriminate Hprod].
  assert (Hch : Forall expected_of cs).
  { rewrite forallb_forall in Hcs. rewrite Forall_forall in IH.
    apply Forall_forall. intros c Hc. apply IH; auto. }
  clear IH Hcs Hprod.
  unfold musical_grammar in Hin. cbn [productions] in Hin.
  repeat (destruct Hin as [Hin | Hin];
          [unfold rule in Hin; injection Hin as <- Hsyms; symmetry in Hsyms |]);
    [.. | destruct Hin];
    unfold NT, T in Hsyms; children; child_facts;
    match goal with
    | |- expected_of (Node ?l ?cs) =>
        let k := eval vm_compute in (kind_of l) in
        change (expected k (leaves (Node l cs)))
    end;
    cbn [expected leaves flat_map]; rewrite ?app_nil_r in *;
    try exact I;
    try (now left);
    try (right; apply shape_app_optional; assumption);
    try (apply shape_app_optional; assumption);
    try assumption.
  - (* Note -> Pitch Duration *)
    cbn [leaves] in *.
    repeat match goal with
      | H : exists _, _ /\ _ = [_] |- _ => destruct H as (? & ? & ->)
      end.
    now apply shape_note.
  - eexists. split; [| reflexivity]. vm_compute. tauto.
  - eexists. split; [| reflexivity]. vm_compute. tauto.
  - eexists. split; [| reflexivity]. vm_compute. tauto.
  - eexists. split; [| reflexivity]. vm_compute. tauto.
  - eexists. split; [| reflexivity]. vm_compute. tauto.
  - eexists. split; [| reflexivity]. vm_compute. tauto.
  - eexists. split; [| reflexivity]. vm_compute. tauto.
  - eexists. split; [| reflexivity]. vm_compute. tauto.
  - eexists. split; [| reflexivity]. vm_compute. tauto.
  - eexists. split; [| reflexivity]. vm_compute. tauto.
  - eexists. split; [| reflexivity]. vm_compute. tauto.
  - eexists. split; [| reflexivity]. vm_compute. tauto.
  - (* Chord -> '(' PitchList ')' Duration *)
    cbn [leaves] in *.
    match goal with
    | H : exists _, _ /\ _ = [_] |- _ => destruct H as (d & Hd & ->)
    end.
    cbn [app]. now apply shape_chord.
Qed.

(** X16: a text that [is_valid] accepts has at least two tokens, of which
    the first is a pitch or an opening parenthesis and the last is a
    duration. *)
Theorem valid_sentence_shape :
  forall debug_ text,
    is_valid (musical_parser debug_) text = Return true ->
    sentence_shape (tokenize (musical_parser debug_) text).
Proof.
  intros debug_ text H. unfold is_valid in H.
  destruct (parse (musical_parser debug_) text) as [[| t ts] | e |] eqn:E;
    try discriminate H.
  apply parse_sound in E; [| reflexivity].
  inversion E as [| ? ? (Hd & Hroot & Hleaves) _]; subst.
  apply derivation_shape in Hd. rewrite <- Hleaves.
  destruct t as [l cs | w]; [| discriminate Hroot].
  cbn [root_symbol] in Hroot. injection Hroot as ->. exact Hd.
Qed.

Lemma valid_sentence_shape_witness :
  is_valid (musical_parser false) (Py.lit "( C E ) half") = Return true
  /\ sentence_shape (tokenize (musical_parser false) (Py.lit "( C E ) half")).
Proof.
  split; [vm_compute; reflexivity |].
  apply (valid_sentence_shape false (Py.lit "( C E ) half")).
  vm_compute; reflexivity.
Defined.

(** X17: the three lists of [demo] are labelled rightly: [is_valid]
    returns true for each of its valid examples and each of its example
    strings, and false for each of its invalid examples. *)
Theorem demo_expectations :
  forall debug_,
    Forall (fun example => is_valid (musical_parser debug_) example = Return true)
           (demo_valid_examples ++ demo_examples)
    /\ Forall (fun example =>
                 is_valid (musical_parser debug_) example = Return false)
              demo_invalid_examples.
Proof. intro debug_. split; repeat constructor; vm_compute; reflexivity. Qed.
